(** * ModalProvider: the listener registry, the subscription bridge and the
      hardware-back integration of react-native-modalfy

    Shallow embedding of [src/lib/ModalProvider.tsx].  The component keeps

    - [modalEventListeners], a JavaScript [Set] of listener objects
      [{ event, handler }] (a [useRef] cell, shared by every render);
    - [contextValue], a [useState] cell;
    - a subscription to the [ModalState] store, taken at mount;
    - a registration with the platform's [BackHandler].

    JavaScript objects are compared by reference, so a listener object is a
    pair of a reference and its fields; a [Set] is the list of its members
    in insertion order. *)

From Stdlib Require Import Strings.String Strings.Ascii Lists.List Bool.Bool.
From Stdlib Require Import Numbers.DecimalString Init.Decimal.
From Stdlib Require Import Arith.PeanoNat Arith.Arith micromega.Lia.
Import ListNotations.

Local Open Scope string_scope.
Local Open Scope list_scope.

(** ** Values and completions *)

(** The run-time values a caller may pass where the types ask for a callback.
    Only functions are callable; a function is known by its reference. *)
Inductive JsValue : Type :=
  | JsUndefined
  | JsNull
  | JsBoolean (b : bool)
  | JsNumber (n : nat)
  | JsString (s : string)
  | JsFunction (fn : nat).

Definition callable (v : JsValue) : bool :=
  match v with
  | JsFunction _ => true
  | _ => false
  end.

(** What a [throw] carries: the error taxonomy of the library. *)
Inductive Error : Type :=
  | ConfigurationError (message : string)
  | InvalidListenerError (message : string)
  | UnknownModalError (message : string).

(** A call either returns a value or throws. *)
Inductive outcome (A : Type) : Type :=
  | Returned (a : A)
  | Threw (e : Error).

Arguments Returned {A} a.
Arguments Threw {A} e.

(** ** A small state-and-exception monad for the component's closures *)

Definition Eff (W A : Type) : Type := W -> W * outcome A.

Definition ret {W A} (a : A) : Eff W A := fun w => (w, Returned a).

Definition bind {W A B} (m : Eff W A) (k : A -> Eff W B) : Eff W B :=
  fun w =>
    match m w with
    | (w', Returned a) => k a w'
    | (w', Threw e) => (w', Threw e)
    end.

(** A call that touches no state: it returns or throws. *)
Definition completion {W A} (o : outcome A) : Eff W A := fun w => (w, o).

Declare Scope eff_scope.
Delimit Scope eff_scope with eff.
Notation "x <- m ;; k" := (bind m (fun x => k))
  (at level 61, m at next level, right associativity) : eff_scope.
Notation "m ;; k" := (bind m (fun _ => k))
  (at level 61, right associativity) : eff_scope.

(** ** [String.prototype.includes] *)

(** [includes s sub]: [sub] occurs in [s] at some position. *)
Fixpoint includes (s sub : string) : bool :=
  if prefix sub s then true
  else match s with
       | EmptyString => false
       | String _ rest => includes rest sub
       end.

(** ** The [Set] of listener objects *)

Record EventListener : Type := mkListener {
  event : string;
  handler : JsValue
}.

(** An object reference. *)
Definition Ref := nat.

(** A member of the set: the object's reference and the object. *)
Definition Member : Type := (Ref * EventListener)%type.

(** [useRef(new Set()).current] together with the allocator of listener
    objects: [nextRef] is the reference the next object literal receives,
    [members] the set in insertion order. *)
Record ModalEventListeners : Type := mkSet {
  nextRef : Ref;
  members : list Member
}.

Definition emptyListeners : ModalEventListeners := mkSet 0 [].

Definition sameRef (r : Ref) (m : Member) : bool := Nat.eqb (fst m) r.

(** [Set.prototype.has]. *)
Definition setHas (r : Ref) (ms : list Member) : bool := existsb (sameRef r) ms.

(** [Set.prototype.add]: an object that is already a member is not added
    again; a new one goes last. *)
Definition setAdd (m : Member) (ms : list Member) : list Member :=
  if setHas (fst m) ms then ms else ms ++ [m].

(** [Set.prototype.delete]: removes the member with that reference and tells
    whether there was one. *)
Definition setDelete (r : Ref) (ms : list Member) : bool * list Member :=
  (setHas r ms, filter (fun m => negb (sameRef r m)) ms).

(** The invariant of the representation: references are unique in the set
    and all of them have been allocated. *)
Definition wf (reg : ModalEventListeners) : Prop :=
  NoDup (map fst (members reg)) /\
  Forall (fun m => fst m < nextRef reg) (members reg).

(** ** [validateListener] and [invariant] of [../utils] *)

Inductive ListenerAction : Type := ActionAdd | ActionRemove.

Module Utils.

(** Modelled from the spec: [invariant] lives in [../utils], which is not
    among the sources.  The provider "asserts a Stack Definition was
    supplied (fails fast otherwise)": the call returns when the condition
    is truthy and throws the given error when it is falsy. *)
Definition invariant (condition : bool) (e : Error) : outcome unit :=
  if condition then Returned tt else Threw e.

(** Modelled from the spec: [validateListener] lives in [../utils], which
    is not among the sources.  It "validates eventName and handler are
    well-formed (non-empty event name; handler is callable) -- fails with
    InvalidListenerError otherwise". *)
Definition validateListener (action : ListenerAction)
    (eventName : string) (handler : JsValue) : outcome unit :=
  if String.eqb eventName "" then
    Threw (InvalidListenerError "unsupported event name")
  else if callable handler then Returned tt
  else Threw (InvalidListenerError "handler is not a function").

End Utils.

(** ** The listener registry: [registerListener] and [clearListeners] *)

(** The separator of the template literal [`${hash}_${eventName}`]. *)
Definition separator : string := "_".

Definition eventKey (hash eventName : string) : string :=
  hash ++ separator ++ eventName.

(** The disposer returned by [registerListener]: [remove] is the closure
    [() => modalEventListeners.delete(newListener)]; it returns what
    [delete] returns. *)
Record Disposer : Type := mkDisposer {
  remove : ModalEventListeners -> bool * ModalEventListeners
}.

Definition deleteListener (r : Ref) (reg : ModalEventListeners)
    : bool * ModalEventListeners :=
  let '(found, ms) := setDelete r (members reg) in
  (found, mkSet (nextRef reg) ms).

(** An object literal [{ event, handler }]: a new object, with a reference
    no other object has. *)
Definition newObject (l : EventListener) : Eff ModalEventListeners Member :=
  fun reg => (mkSet (S (nextRef reg)) (members reg), Returned (nextRef reg, l)).

(** [modalEventListeners.add(newListener)]. *)
Definition addListener (m : Member) : Eff ModalEventListeners unit :=
  fun reg => (mkSet (nextRef reg) (setAdd m (members reg)), Returned tt).

Section Registry.

Local Open Scope eff_scope.

(** The validator imported from [../utils]; it sees the event name and the
    handler, never the hash. *)
Variable validateListener :
  ListenerAction -> string -> JsValue -> outcome unit.

(** [registerListener(hash, eventName, handler)].  Validation comes first;
    when it throws nothing has been allocated or added. *)
Definition registerListener (hash eventName : string) (handler : JsValue)
    : Eff ModalEventListeners Disposer :=
  completion (validateListener ActionAdd eventName handler) ;;
  newListener <- newObject (mkListener (eventKey hash eventName) handler) ;;
  addListener newListener ;;
  ret (mkDisposer (deleteListener (fst newListener))).

End Registry.

(** [clearListeners(hash)]: [forEach] visits the members in insertion order
    and deletes the visited member when its key includes [hash].  The
    callback deletes nothing but the member being visited, so visiting the
    members present at the start is what the live iteration does. *)
Definition clearVisit (hash : string) (ms : list Member) (item : Member)
    : list Member :=
  if includes (event (snd item)) hash then snd (setDelete (fst item) ms) else ms.

Definition clearListeners (hash : string) (reg : ModalEventListeners)
    : ModalEventListeners :=
  mkSet (nextRef reg) (fold_left (clearVisit hash) (members reg) (members reg)).

(** Modelled from the spec: emission is done by collaborators that are not
    among the sources.  It "walks the registry for entries whose scoped key
    equals hash+separator+eventName and invokes each handler"; [emitted] is
    the list of members whose handler an emission invokes, in order. *)
Definition emitted (hash eventName : string) (reg : ModalEventListeners)
    : list Member :=
  filter (fun m => String.eqb (event (snd m)) (eventKey hash eventName))
         (members reg).

(** The operations on the set, for sequences of them: a registration, the
    [remove] of a disposer (it holds the reference of its listener) and
    [clearListeners]. *)
Inductive RegistryOp : Type :=
  | Register (hash eventName : string) (handler : JsValue)
  | Remove (r : Ref)
  | Clear (hash : string).

Definition applyOp
    (validateListener : ListenerAction -> string -> JsValue -> outcome unit)
    (reg : ModalEventListeners) (op : RegistryOp) : ModalEventListeners :=
  match op with
  | Register hash eventName handler =>
      fst (registerListener validateListener hash eventName handler reg)
  | Remove r => snd (deleteListener r reg)
  | Clear hash => clearListeners hash reg
  end.

Definition applyOps
    (validateListener : ListenerAction -> string -> JsValue -> outcome unit)
    (ops : list RegistryOp) (reg : ModalEventListeners) : ModalEventListeners :=
  fold_left (applyOp validateListener) ops reg.

(** The listener object a call creates in a given set. *)
Definition createdBy (hash eventName : string) (handler : JsValue)
    (reg : ModalEventListeners) : Member :=
  (nextRef reg, mkListener (eventKey hash eventName) handler).

(** References are not handed out twice: once a call has created its
    object, whatever is later found in the set under that reference is that
    object. *)
Definition owns (created : Member) (reg : ModalEventListeners) : Prop :=
  wf reg /\ fst created < nextRef reg /\
  forall m, In m (members reg) -> fst m = fst created -> m = created.

(** The arguments of one call to [registerListener]. *)
Definition Registration : Type := (string * string * JsValue)%type.

Definition registerOp (r : Registration) : RegistryOp :=
  let '(hash, eventName, handler) := r in Register hash eventName handler.

(** Whether the validator lets a registration through. *)
Definition accepted
    (validateListener : ListenerAction -> string -> JsValue -> outcome unit)
    (r : Registration) : bool :=
  let '(_, eventName, handler) := r in
  match validateListener ActionAdd eventName handler with
  | Returned _ => true
  | Threw _ => false
  end.

(** [sub] occurs in [s]: there is something before it and something after. *)
Definition occursIn (sub s : string) : Prop :=
  exists before after : string, s = (before ++ sub ++ after)%string.

(** An entry is scoped to [hash] when it was registered under [hash]: its
    key is [hash], the separator and some event name. *)
Definition scopedTo (hash : string) (m : Member) : Prop :=
  exists eventName, event (snd m) = eventKey hash eventName.

(** ** The subscription bridge: [contextValue] and [listener] *)

(** The modal names a stack object configures. *)
Definition ModalStack : Type := list string.

Module ModalContext.
Section Fields.

(** [Callback]: the closures a render creates; [Modal]: an item of the
    open stack. *)
Variables Callback Modal : Type.

(** The value handed to [ModalContext.Provider]. *)
Record ModalContextProvider : Type := mkContext {
  currentModal : option Modal;
  closeAllModals : Callback;
  closeModals : Callback;
  closeModal : Callback;
  openModal : Callback;
  getParam : Callback;
  stack : option ModalStack
}.

(** What the store hands to a subscriber: [modalState.currentModal] and
    [modalState.stack]. *)
Record ModalStateSnapshot : Type := mkSnapshot {
  snapCurrentModal : option Modal;
  snapStack : option ModalStack
}.

Inductive ConsoleCall : Type :=
  | ConsoleWarn (label : string) (error : JsValue).

(** The [useState] cell and the console. *)
Record BridgeState : Type := mkBridge {
  contextValue : ModalContextProvider;
  console : list ConsoleCall
}.

(** [useState]'s initial value at the first render. *)
Definition initialContextValue
    (closeAllModals closeModals closeModal openModal getParam : Callback)
    (stack : option ModalStack) : ModalContextProvider :=
  mkContext None closeAllModals closeModals closeModal openModal getParam stack.

(** [listener(modalState, error)] as a render defines it: [captured] is
    the [contextValue] of that render.  [setContextValue] replaces the
    cell; [console.warn] adds a line. *)
Definition listener (captured : ModalContextProvider)
    (modalState : option ModalStateSnapshot) (error : JsValue)
    (st : BridgeState) : BridgeState * outcome unit :=
  match modalState with
  | Some snapshot =>
      (mkBridge
         (mkContext (snapCurrentModal snapshot)
                    (closeAllModals captured) (closeModals captured)
                    (closeModal captured) (openModal captured)
                    (getParam captured)
                    (snapStack snapshot))
         (console st),
       Returned tt)
  | None =>
      (mkBridge (contextValue st) (console st ++ [ConsoleWarn "Modalfy" error]),
       Returned tt)
  end.

(** The bridge of one mounted root.  The effect that subscribes runs once,
    after the first render, so the store calls the first render's
    [listener], whose [contextValue] is the initial one. *)
Definition mountedBridge (initial : ModalContextProvider) : BridgeState :=
  mkBridge initial [].

Definition subscribedListener (initial : ModalContextProvider) :=
  listener initial.

(** The store notifies the subscriber with [(snapshot, error)] pairs. *)
Definition Notification : Type := (option ModalStateSnapshot * JsValue)%type.

Definition deliver (initial : ModalContextProvider)
    (st : BridgeState) (n : Notification) : BridgeState :=
  fst (subscribedListener initial (fst n) (snd n) st).

Definition deliverAll (initial : ModalContextProvider)
    (ns : list Notification) : BridgeState :=
  fold_left (deliver initial) ns (mountedBridge initial).

(** [{ ...previous, currentModal, stack }]. *)
Definition overwrite (previous : ModalContextProvider)
    (snapshot : ModalStateSnapshot) : ModalContextProvider :=
  mkContext (snapCurrentModal snapshot)
            (closeAllModals previous) (closeModals previous)
            (closeModal previous) (openModal previous) (getParam previous)
            (snapStack snapshot).

(** Two context values carry the same closures. *)
Definition sameCallbacks (a b : ModalContextProvider) : Prop :=
  closeAllModals a = closeAllModals b /\
  closeModals a = closeModals b /\
  closeModal a = closeModal b /\
  openModal a = openModal b /\
  getParam a = getParam b.

(** The snapshot of the last notification that carried one. *)
Definition lastSnapshot (ns : list Notification) : option ModalStateSnapshot :=
  fold_left (fun seen n => match fst n with
                           | Some snapshot => Some snapshot
                           | None => seen
                           end) ns None.

(** One warning for each notification without a snapshot, oldest first. *)
Definition warnings (ns : list Notification) : list ConsoleCall :=
  flat_map (fun n => match fst n with
                     | Some _ => []
                     | None => [ConsoleWarn "Modalfy" (snd n)]
                     end) ns.

End Fields.

Arguments mkContext {Callback Modal}.
Arguments currentModal {Callback Modal}.
Arguments closeAllModals {Callback Modal}.
Arguments closeModals {Callback Modal}.
Arguments closeModal {Callback Modal}.
Arguments openModal {Callback Modal}.
Arguments getParam {Callback Modal}.
Arguments stack {Callback Modal}.
Arguments mkSnapshot {Modal}.
Arguments snapCurrentModal {Modal}.
Arguments snapStack {Modal}.
Arguments mkBridge {Callback Modal}.
Arguments contextValue {Callback Modal}.
Arguments console {Callback Modal}.
Arguments initialContextValue {Callback Modal}.
Arguments listener {Callback Modal}.
Arguments mountedBridge {Callback Modal}.
Arguments subscribedListener {Callback Modal}.
Arguments deliver {Callback Modal}.
Arguments deliverAll {Callback Modal}.
Arguments overwrite {Callback Modal}.
Arguments sameCallbacks {Callback Modal}.
Arguments lastSnapshot {Modal}.
Arguments warnings {Modal}.

End ModalContext.

(** ** The store [ModalState] as the provider sees it *)

Module ModalState.

(** The parameters given to [openModal]. *)
Definition Params : Type := list (string * JsValue).

(** An item of the open stack, as far as the provider handles it. *)
Record StackItem : Type := mkItem {
  hash : string;
  name : string;
  params : Params
}.

Definition Subscription : Type := nat.

(** The methods of the imported [ModalState] object the provider calls.
    A method takes the store to its next state and returns or throws. *)
Class Store (S : Type) : Type := {
  currentModal : S -> option StackItem;
  init : option ModalStack -> S -> S * outcome unit;
  subscribe : S -> S * outcome Subscription;
  unsubscribe : Subscription -> S -> S * outcome unit;
  openModal : string -> Params -> S -> S * outcome unit;
  getParam : string -> string -> JsValue -> S -> S * outcome JsValue;
  closeModal : StackItem -> S -> S * outcome unit;
  closeModals : string -> S -> S * outcome unit;
  closeAllModals : S -> S * outcome unit;
  handleBackPress : S -> S * outcome bool
}.

(** What the provider relies on: [init] installs the state its factory
    builds (the provider's factory has [currentModal: null]); subscribing,
    reading a parameter and closing leave a store without a current modal
    without one. *)
Class Lawful (S : Type) `{Store S} : Prop := {
  init_currentModal : forall d s s',
    init d s = (s', Returned tt) -> currentModal s' = None;
  subscribe_currentModal : forall s,
    currentModal (fst (subscribe s)) = currentModal s;
  getParam_none : forall h p d s,
    currentModal s = None -> currentModal (fst (getParam h p d s)) = None;
  closeModal_none : forall i s,
    currentModal s = None -> currentModal (fst (closeModal i s)) = None;
  closeModals_none : forall n s,
    currentModal s = None -> currentModal (fst (closeModals n s)) = None;
  closeAllModals_none : forall s,
    currentModal s = None -> currentModal (fst (closeAllModals s)) = None;
  handleBackPress_none : forall s,
    currentModal s = None -> currentModal (fst (handleBackPress s)) = None
}.

End ModalState.

(** ** Calls to the collaborators *)

(** The functions handed to [BackHandler]: the store's [handleBackPress],
    one function for the life of the process, or a function of the host. *)
Inductive BackPressHandler : Type :=
  | HandleBackPress
  | HostHandler (id : nat).

Definition sameHandler (a b : BackPressHandler) : bool :=
  match a, b with
  | HandleBackPress, HandleBackPress => true
  | HostHandler i, HostHandler j => Nat.eqb i j
  | _, _ => false
  end.

(** The calls the provider makes to [BackHandler] and to [ModalState], in
    the order it makes them. *)
Inductive Call : Type :=
  | BackHandlerAdd (eventName : string) (handler : BackPressHandler)
  | BackHandlerRemove (eventName : string) (handler : BackPressHandler)
  | StoreInit (stack : option ModalStack)
  | StoreSubscribe
  | StoreUnsubscribe (subscription : ModalState.Subscription)
  | StoreOpenModal (modalName : string) (params : ModalState.Params)
  | StoreGetParam (hash paramName : string) (defaultValue : JsValue)
  | StoreCloseModal (stackItem : ModalState.StackItem)
  | StoreCloseModals (modalName : string)
  | StoreCloseAllModals
  | StoreHandleBackPress.

Definition isStoreCall (c : Call) : bool :=
  match c with
  | BackHandlerAdd _ _ | BackHandlerRemove _ _ => false
  | _ => true
  end.

(** React Native's [BackHandler] keeps the subscribed functions in a
    collection without duplicates: adding a function that is subscribed
    changes nothing, removing one drops it. *)
Definition platformStep (subs : list BackPressHandler) (c : Call)
    : list BackPressHandler :=
  match c with
  | BackHandlerAdd _ h =>
      if existsb (sameHandler h) subs then subs else subs ++ [h]
  | BackHandlerRemove _ h =>
      filter (fun h' => negb (sameHandler h h')) subs
  | _ => subs
  end.

(** The functions subscribed to the hardware back press after the calls of
    a trace. *)
Definition backSubscriptions (trace : list Call) : list BackPressHandler :=
  fold_left platformStep trace [].

Definition attached (trace : list Call) : bool :=
  existsb (sameHandler HandleBackPress) (backSubscriptions trace).

(** The attach: [BackHandler.addEventListener('hardwareBackPress',
    ModalState.handleBackPress)]. *)
Definition attachCall : Call :=
  BackHandlerAdd "hardwareBackPress" HandleBackPress.

(** The calls of a trace that reach [BackHandler]. *)
Definition backHandlerCalls (trace : list Call) : list Call :=
  filter (fun c => negb (isStoreCall c)) trace.

(** ** The provider *)

(** The store, the calls made so far and the [useRef] cell that holds the
    subscription. *)
Record World (S : Type) : Type := mkWorld {
  store : S;
  trace : list Call;
  modalStateSubscription : option ModalState.Subscription
}.

Arguments mkWorld {S}.
Arguments store {S}.
Arguments trace {S}.
Arguments modalStateSubscription {S}.

(** The operations a sequence is made of: the closures of the context
    value, and the platform's hardware back press. *)
Inductive Operation : Type :=
  | OpOpenModal (modalName : string) (params : ModalState.Params)
  | OpGetParam (hash paramName : string) (defaultValue : JsValue)
  | OpCloseModal (stackItem : ModalState.StackItem)
  | OpCloseModals (modalName : string)
  | OpCloseAllModals
  | OpHardwareBackPress.

(** Truthiness of the [stack] prop: an absent prop is [undefined]. *)
Definition truthy {A} (prop : option A) : bool :=
  match prop with
  | Some _ => true
  | None => false
  end.

(** A root before its mount effect has run: the provider has made no call
    and holds no subscription. *)
Definition beforeMount {S : Type} (s : S) : World S := mkWorld s [] None.

Definition stackMissing : Error :=
  ConfigurationError "You need to provide a `stack` prop to <ModalProvider>".

Section Provider.

Context {S : Type} `{ModalState.Store S}.

(** [invariant] of [../utils], applied to the truthiness of its first
    argument. *)
Variable invariant : bool -> Error -> outcome unit.

Local Open Scope eff_scope.

Definition call (c : Call) : Eff (World S) unit :=
  fun w => (mkWorld (store w) (trace w ++ [c]) (modalStateSubscription w),
            Returned tt).

(** A method of the store: the call is made, then the store moves. *)
Definition onStore {A} (c : Call) (method : S -> S * outcome A)
    : Eff (World S) A :=
  call c ;;
  (fun w => let '(s', o) := method (store w) in
            (mkWorld s' (trace w) (modalStateSubscription w), o)).

(** [ModalState.getState().currentModal], read in a root whose mount
    effect has initialised the store. *)
Definition getState_currentModal
    : Eff (World S) (option ModalState.StackItem) :=
  fun w => (w, Returned (ModalState.currentModal (store w))).

Definition setSubscription (sub : ModalState.Subscription)
    : Eff (World S) unit :=
  fun w => (mkWorld (store w) (trace w) (Some sub), Returned tt).

Definition openModal (modalName : string) (params : ModalState.Params)
    : Eff (World S) unit :=
  current <- getState_currentModal ;;
  match current with
  | None => call (BackHandlerAdd "hardwareBackPress" HandleBackPress)
  | Some _ => ret tt
  end ;;
  onStore (StoreOpenModal modalName params)
          (ModalState.openModal modalName params).

Definition getParam (hash paramName : string) (defaultValue : JsValue)
    : Eff (World S) JsValue :=
  onStore (StoreGetParam hash paramName defaultValue)
          (ModalState.getParam hash paramName defaultValue).

Definition closeModal (stackItem : ModalState.StackItem)
    : Eff (World S) unit :=
  onStore (StoreCloseModal stackItem) (ModalState.closeModal stackItem).

Definition closeModals (modalName : string) : Eff (World S) unit :=
  onStore (StoreCloseModals modalName) (ModalState.closeModals modalName).

Definition closeAllModals : Eff (World S) unit :=
  onStore StoreCloseAllModals ModalState.closeAllModals.

(** The effect of [useEffect(..., [])] at mount. *)
Definition mount (stack : option ModalStack) : Eff (World S) unit :=
  completion (invariant (truthy stack) stackMissing) ;;
  onStore (StoreInit stack) (ModalState.init stack) ;;
  sub <- onStore StoreSubscribe ModalState.subscribe ;;
  setSubscription sub.

(** The function the effect returns, run at unmount.  The optional call
    [modalStateSubscription.current?.unsubscribe()] is skipped when the
    cell is empty. *)
Definition cleanup : Eff (World S) unit :=
  call (BackHandlerRemove "hardwareBackPress" HandleBackPress) ;;
  sub <- (fun w => (w, Returned (modalStateSubscription w))) ;;
  match sub with
  | Some s => onStore (StoreUnsubscribe s) (ModalState.unsubscribe s)
  | None => ret tt
  end.

(** A hardware back press: the platform calls the subscribed function;
    with none subscribed the press is the platform's to handle. *)
Definition hardwareBackPress : Eff (World S) bool :=
  fun w =>
    if attached (trace w)
    then onStore StoreHandleBackPress ModalState.handleBackPress w
    else (w, Returned false).

Definition discard {A} (m : Eff (World S) A) : Eff (World S) unit :=
  m ;; ret tt.

Definition perform (op : Operation) : Eff (World S) unit :=
  match op with
  | OpOpenModal modalName params => openModal modalName params
  | OpGetParam hash paramName defaultValue =>
      discard (getParam hash paramName defaultValue)
  | OpCloseModal stackItem => closeModal stackItem
  | OpCloseModals modalName => closeModals modalName
  | OpCloseAllModals => closeAllModals
  | OpHardwareBackPress => discard hardwareBackPress
  end.

(** Operations come from separate event handlers: one that throws does
    not stop the next. *)
Definition step (w : World S) (op : Operation) : World S :=
  fst (perform op w).

Definition run (ops : list Operation) (w : World S) : World S :=
  fold_left step ops w.

(** The call to [BackHandler] an operation makes in a world: the attach,
    made by [openModal] when the store has no current modal. *)
Definition attachBy (op : Operation) (w : World S) : list Call :=
  match op with
  | OpOpenModal _ _ =>
      match ModalState.currentModal (store w) with
      | None => [attachCall]
      | Some _ => []
      end
  | _ => []
  end.

(** What holds of a mounted root between operations: the provider's calls
    to [BackHandler] so far are attaches, and there has been one if the
    store has a current modal. *)
Definition attachedWhileOpen (w : World S) : Prop :=
  exists n,
    backHandlerCalls (trace w) = repeat attachCall n /\
    (n = 0 -> ModalState.currentModal (store w) = None).

End Provider.

Definition isOpenModal (op : Operation) : bool :=
  match op with
  | OpOpenModal _ _ => true
  | _ => false
  end.

(** The detach: [BackHandler.removeEventListener('hardwareBackPress',
    ModalState.handleBackPress)]. *)
Definition detachCall : Call :=
  BackHandlerRemove "hardwareBackPress" HandleBackPress.

(** ** The store of the specification *)

Module SpecStore.

Import ModalState.

(** Modelled from the spec: the store [./ModalState] is not among the
    sources.  It holds "the ordered list of currently-open modal
    instances" (last element topmost) and the definition fixed at init;
    [issued] counts the hashes handed out and [subscribers] the
    subscriptions. *)
Record State : Type := mkState {
  definition : option ModalStack;
  stack : list StackItem;
  issued : nat;
  subscribers : list Subscription
}.

(** Modelled from the spec: the store before [init], "uninitialized". *)
Definition uninitialized : State := mkState None [] 0 [].

(** Modelled from the spec: "currentModal = last element or none". *)
(** Modelled from the spec: "last element is topmost / frontmost". *)
Fixpoint topmost (items : list StackItem) : option StackItem :=
  match items with
  | [] => None
  | [i] => Some i
  | _ :: rest => topmost rest
  end.

Definition current (s : State) : option StackItem := topmost (stack s).

(** Modelled from the spec: "a freshly generated unique hash"; here the
    modal name and the number of hashes issued before. *)
Definition freshHash (modalName : string) (n : nat) : string :=
  modalName ++ "_" ++ NilEmpty.string_of_uint (Nat.to_uint n).

(** Modelled from the spec: "init(initialStateFactory): sets the store to
    the factory's result"; the provider's factory has no current modal
    and the given definition. *)
Definition specInit (d : option ModalStack) (s : State)
    : State * outcome unit :=
  (mkState d [] (issued s) (subscribers s), Returned tt).

(** Modelled from the spec: "subscribe(listener) -> Subscription{
    unsubscribe() }", "multiple subscribers are allowed". *)
Definition specSubscribe (s : State) : State * outcome Subscription :=
  let sub := List.length (subscribers s) in
  (mkState (definition s) (stack s) (issued s) (subscribers s ++ [sub]),
   Returned sub).

(** Modelled from the spec: [unsubscribe] of a subscription drops it. *)
Definition specUnsubscribe (sub : Subscription) (s : State)
    : State * outcome unit :=
  (mkState (definition s) (stack s) (issued s)
           (filter (fun x => negb (Nat.eqb x sub)) (subscribers s)),
   Returned tt).

(** Modelled from the spec: "the core only reads modal names from" the
    definition, to validate [openModal] calls. *)
Definition defines (d : option ModalStack) (modalName : string) : bool :=
  match d with
  | Some names => existsb (String.eqb modalName) names
  | None => false
  end.

(** Modelled from the spec: "openModal(name, params): fails with
    UnknownModalError if name is not in the definition.  Otherwise
    constructs a new ModalInstance with a freshly generated unique hash,
    appends it to the end of the stack". *)
Definition specOpenModal (modalName : string) (ps : Params) (s : State)
    : State * outcome unit :=
  if defines (definition s) modalName then
    (mkState (definition s)
             (stack s ++ [mkItem (freshHash modalName (issued s)) modalName ps])
             (S (issued s)) (subscribers s),
     Returned tt)
  else (s, Threw (UnknownModalError modalName)).

(** Modelled from the spec: [params] is an "arbitrary key->value mapping
    supplied at open time". *)
Definition lookup (key : string) (ps : Params) : option JsValue :=
  option_map snd (find (fun kv => String.eqb (fst kv) key) ps).

(** Modelled from the spec: "getParam(hash, paramName, defaultValue)":
    the parameter when the instance and the key are there, else the
    default; never an error. *)
Definition specGetParam (h paramName : string) (defaultValue : JsValue)
    (s : State) : State * outcome JsValue :=
  (s, Returned
        match find (fun i => String.eqb (hash i) h) (stack s) with
        | Some i =>
            match lookup paramName (params i) with
            | Some v => v
            | None => defaultValue
            end
        | None => defaultValue
        end).

(** Modelled from the spec: "closeModal(instanceRef): removes the
    referenced instance from the stack wherever it is ... No-op with no
    error if the instance is not found". *)
Definition specCloseModal (item : StackItem) (s : State)
    : State * outcome unit :=
  (mkState (definition s)
           (filter (fun i => negb (String.eqb (hash i) (hash item))) (stack s))
           (issued s) (subscribers s),
   Returned tt).

(** Modelled from the spec: "closeModals(name): removes all instances
    whose name matches, preserving relative order of the remainder". *)
Definition specCloseModals (modalName : string) (s : State)
    : State * outcome unit :=
  (mkState (definition s)
           (filter (fun i => negb (String.eqb (name i) modalName)) (stack s))
           (issued s) (subscribers s),
   Returned tt).

(** Modelled from the spec: "closeAllModals(): empties the stack
    entirely". *)
Definition specCloseAllModals (s : State) : State * outcome unit :=
  (mkState (definition s) [] (issued s) (subscribers s), Returned tt).

(** Modelled from the spec: "handleBackPress(): if the stack is non-empty,
    closes the topmost instance and reports the action as handled; if the
    stack is empty, reports unhandled". *)
Definition specHandleBackPress (s : State) : State * outcome bool :=
  match stack s with
  | [] => (s, Returned false)
  | _ :: _ =>
      (mkState (definition s) (removelast (stack s)) (issued s) (subscribers s),
       Returned true)
  end.

(** Modelled from the spec: the methods above, as the store the provider
    imports. *)
#[global] Instance specStore : Store State := {
  currentModal := current;
  init := specInit;
  subscribe := specSubscribe;
  unsubscribe := specUnsubscribe;
  openModal := specOpenModal;
  getParam := specGetParam;
  closeModal := specCloseModal;
  closeModals := specCloseModals;
  closeAllModals := specCloseAllModals;
  handleBackPress := specHandleBackPress
}.

End SpecStore.

(** * Properties *)

(** ** Strings *)

Lemma prefix_nil (s : string) : prefix "" s = true.
Proof. destruct s; reflexivity. Qed.

Lemma prefix_append (a b : string) : prefix a (a ++ b) = true.
Proof.
  induction a as [|c a IH]; simpl.
  - apply prefix_nil.
  - destruct (ascii_dec c c) as [_|ne]; [exact IH | contradiction].
Qed.

Lemma includes_nil (s : string) : includes s "" = true.
Proof. destruct s; reflexivity. Qed.

Lemma includes_of_prefix (s sub : string) :
  prefix sub s = true -> includes s sub = true.
Proof. intros H. destruct s; cbn [includes]; rewrite H; reflexivity. Qed.

Lemma includes_prefix (sub rest : string) : includes (sub ++ rest) sub = true.
Proof. apply includes_of_prefix, prefix_append. Qed.

Lemma includes_cons (c : ascii) (s sub : string) :
  includes s sub = true -> includes (String c s) sub = true.
Proof.
  intros H. simpl.
  destruct sub as [|d sub']; [reflexivity|].
  destruct (ascii_dec d c); [destruct (prefix sub' s)|]; auto.
Qed.

Lemma includes_middle (a sub b : string) : includes (a ++ sub ++ b) sub = true.
Proof.
  induction a as [|c a IH]; simpl append.
  - apply includes_prefix.
  - apply includes_cons, IH.
Qed.

Lemma includes_eventKey (hash eventName : string) :
  includes (eventKey hash eventName) hash = true.
Proof. unfold eventKey. apply includes_prefix. Qed.

Lemma includes_cons_false (c : ascii) (s sub : string) :
  includes (String c s) sub = false -> includes s sub = false.
Proof.
  intros H. destruct (includes s sub) eqn:E; [|reflexivity].
  rewrite (includes_cons c _ _ E) in H. discriminate.
Qed.

Lemma includes_separator_head (s : string) :
  includes (String "_" s) separator = true.
Proof.
  apply includes_of_prefix. unfold separator. cbn [prefix].
  destruct (ascii_dec "_" "_") as [_|ne]; [apply prefix_nil | contradiction].
Qed.

Lemma separator_cons (e : string) : (separator ++ e)%string = String "_" e.
Proof. reflexivity. Qed.

Lemma separator_inj (e1 e2 : string) :
  (separator ++ e1)%string = (separator ++ e2)%string -> e1 = e2.
Proof. rewrite !separator_cons. intros E. injection E as E. exact E. Qed.

(** A key splits in one way only when the separator is kept out of the
    event names, or out of the hashes. *)
Lemma eventKey_injective (h1 e1 h2 e2 : string) :
  (includes e1 separator = false /\ includes e2 separator = false) \/
  (includes h1 separator = false /\ includes h2 separator = false) ->
  eventKey h1 e1 = eventKey h2 e2 -> h1 = h2 /\ e1 = e2.
Proof.
  unfold eventKey. revert h2.
  induction h1 as [|c h1 IH]; intros [|c' h2] free E; cbn [append] in E.
  - apply separator_inj in E. auto.
  - rewrite (separator_cons e1) in E. injection E as Ec Ee. subst c'.
    destruct free as [[F _]|[_ F]].
    + change (e1 = h2 ++ separator ++ e2)%string in Ee.
      rewrite Ee, (includes_middle h2 separator e2) in F. discriminate.
    + rewrite includes_separator_head in F. discriminate.
  - rewrite (separator_cons e2) in E. injection E as Ec Ee. subst c.
    destruct free as [[_ F]|[F _]].
    + change (h1 ++ separator ++ e1 = e2)%string in Ee.
      rewrite <- Ee, (includes_middle h1 separator e1) in F. discriminate.
    + rewrite includes_separator_head in F. discriminate.
  - injection E as Ec Ee. subst c'.
    destruct (IH h2) as [Hh He]; [|exact Ee|subst; auto].
    destruct free as [F|[F1 F2]]; [left; exact F|right].
    split; eapply includes_cons_false; eassumption.
Qed.

(** ** The set *)

Lemma sameRef_true (r : Ref) (m : Member) : sameRef r m = true <-> fst m = r.
Proof. unfold sameRef. apply Nat.eqb_eq. Qed.

Lemma filter_all {A} (f : A -> bool) (l : list A) :
  (forall x, In x l -> f x = true) -> filter f l = l.
Proof.
  induction l as [|a l IH]; intros H; simpl; [reflexivity|].
  rewrite (H a (or_introl eq_refl)), IH; [reflexivity|].
  intros x Hx. apply H. right. exact Hx.
Qed.

Lemma filter_none {A} (f : A -> bool) (l : list A) :
  (forall x, In x l -> f x = false) -> filter f l = [].
Proof.
  induction l as [|a l IH]; intros H; simpl; [reflexivity|].
  rewrite (H a (or_introl eq_refl)). apply IH.
  intros x Hx. apply H. right. exact Hx.
Qed.

Lemma filter_twice {A} (f g : A -> bool) (l : list A) :
  filter f (filter g l) = filter (fun x => g x && f x) l.
Proof.
  induction l as [|a l IH]; simpl; [reflexivity|].
  destruct (g a); simpl; [destruct (f a)|]; rewrite IH; reflexivity.
Qed.

Lemma NoDup_map_filter {A B} (p : A -> B) (f : A -> bool) (l : list A) :
  NoDup (map p l) -> NoDup (map p (filter f l)).
Proof.
  induction l as [|a l IH]; simpl; intros H; [exact H|].
  inversion H as [|? ? Hnot Hrest]; subst.
  destruct (f a); simpl; [constructor|]; auto.
  intros Hin. apply Hnot. apply in_map_iff in Hin.
  destruct Hin as [x [Hx Hin]]. apply filter_In in Hin.
  apply in_map_iff. exists x. tauto.
Qed.

Lemma Forall_filter {A} (P : A -> Prop) (f : A -> bool) (l : list A) :
  Forall P l -> Forall P (filter f l).
Proof.
  intros H. apply Forall_forall. intros x Hx. apply filter_In in Hx.
  rewrite Forall_forall in H. apply H, Hx.
Qed.

(** With unique references a member is known by its reference. *)
Lemma member_by_ref (l : list Member) (a b : Member) :
  NoDup (map fst l) -> In a l -> In b l -> fst a = fst b -> a = b.
Proof.
  induction l as [|x l IH]; simpl; intros H Ha Hb E; [contradiction|].
  inversion H as [|? ? Hnot Hrest]; subst.
  destruct Ha as [->|Ha], Hb as [->|Hb]; auto.
  - exfalso. apply Hnot. rewrite E. apply in_map, Hb.
  - exfalso. apply Hnot. rewrite <- E. apply in_map, Ha.
Qed.

Lemma wf_allocated (reg : ModalEventListeners) (m : Member) :
  wf reg -> In m (members reg) -> fst m < nextRef reg.
Proof.
  intros [_ Hlt] Hin. rewrite Forall_forall in Hlt. exact (Hlt m Hin).
Qed.

Lemma wf_not_next (reg : ModalEventListeners) (m : Member) :
  wf reg -> In m (members reg) -> fst m <> nextRef reg.
Proof.
  intros W Hin E. pose proof (wf_allocated reg m W Hin) as Hlt.
  rewrite E in Hlt. exact (Nat.lt_irrefl _ Hlt).
Qed.

Lemma setHas_fresh (reg : ModalEventListeners) :
  wf reg -> setHas (nextRef reg) (members reg) = false.
Proof.
  intros W. unfold setHas.
  destruct (existsb _ _) eqn:E; [|reflexivity].
  apply existsb_exists in E. destruct E as [m [Hin Hm]].
  apply sameRef_true in Hm. destruct (wf_not_next reg m W Hin Hm).
Qed.

(** What a [forEach] that deletes leaves of a set: the members no visited
    item with a matching key shares its reference with. *)
Lemma clear_fold (hash : string) (items acc : list Member) :
  fold_left (clearVisit hash) items acc =
  filter (fun m => negb (existsb (fun item => includes (event (snd item)) hash
                                             && sameRef (fst item) m) items))
         acc.
Proof.
  revert acc. induction items as [|item items IH]; intros acc; simpl.
  - symmetry. apply filter_all. reflexivity.
  - rewrite IH. unfold clearVisit.
    destruct (includes (event (snd item)) hash); simpl.
    + rewrite filter_twice. apply filter_ext. intros m.
      rewrite negb_orb. reflexivity.
    + reflexivity.
Qed.

(** On a well-formed set [clearListeners] is a filter on the keys. *)
Lemma clearListeners_filter (hash : string) (reg : ModalEventListeners) :
  wf reg ->
  members (clearListeners hash reg) =
  filter (fun m => negb (includes (event (snd m)) hash)) (members reg).
Proof.
  intros [Hnd _]. unfold clearListeners. simpl. rewrite clear_fold.
  apply filter_ext_in. intros m Hm. f_equal.
  destruct (includes (event (snd m)) hash) eqn:E.
  - apply existsb_exists. exists m. rewrite E. split; [exact Hm|].
    apply sameRef_true. reflexivity.
  - destruct (existsb _ _) eqn:X; [|reflexivity].
    apply existsb_exists in X. destruct X as [item [Hin Hitem]].
    apply andb_prop in Hitem. destruct Hitem as [Hinc Href].
    apply sameRef_true in Href.
    rewrite (member_by_ref _ m item Hnd Hm Hin Href) in E. congruence.
Qed.

Lemma wf_filter (f : Member -> bool) (reg : ModalEventListeners) :
  wf reg -> wf (mkSet (nextRef reg) (filter f (members reg))).
Proof.
  intros [Hnd Hlt]. split; simpl.
  - apply NoDup_map_filter, Hnd.
  - apply Forall_filter, Hlt.
Qed.

Lemma wf_deleteListener (r : Ref) (reg : ModalEventListeners) :
  wf reg -> wf (snd (deleteListener r reg)).
Proof. intros H. unfold deleteListener. simpl. apply wf_filter, H. Qed.

Lemma setHas_deleted (r : Ref) (ms : list Member) :
  setHas r (filter (fun m => negb (sameRef r m)) ms) = false.
Proof.
  unfold setHas. apply not_true_is_false. intros Hex.
  apply existsb_exists in Hex. destruct Hex as [m [Hin Hm]].
  apply filter_In in Hin. destruct Hin as [_ Hneg].
  rewrite Hm in Hneg. discriminate.
Qed.

(** A second [delete] of the same object finds nothing and changes
    nothing. *)
Lemma deleteListener_twice (r : Ref) (reg : ModalEventListeners) :
  deleteListener r (snd (deleteListener r reg)) =
  (false, snd (deleteListener r reg)).
Proof.
  unfold deleteListener, setDelete. cbn [snd fst members nextRef].
  rewrite setHas_deleted, filter_twice. do 2 f_equal.
  apply filter_ext. intros m. apply andb_diag.
Qed.

Lemma wf_clearListeners (hash : string) (reg : ModalEventListeners) :
  wf reg -> wf (clearListeners hash reg).
Proof.
  intros H. unfold clearListeners. rewrite clear_fold. apply wf_filter, H.
Qed.

Lemma wf_emptyListeners : wf emptyListeners.
Proof. split; simpl; constructor. Qed.

(** ** [registerListener] *)

Section RegistryFacts.

Variable validateListener : ListenerAction -> string -> JsValue -> outcome unit.

Lemma registerListener_threw hash eventName handler reg e :
  validateListener ActionAdd eventName handler = Threw e ->
  registerListener validateListener hash eventName handler reg = (reg, Threw e).
Proof.
  intros V. unfold registerListener, bind, completion. rewrite V. reflexivity.
Qed.

Lemma registerListener_returned hash eventName handler reg u :
  wf reg ->
  validateListener ActionAdd eventName handler = Returned u ->
  registerListener validateListener hash eventName handler reg =
  (mkSet (S (nextRef reg))
         (members reg ++ [createdBy hash eventName handler reg]),
   Returned (mkDisposer (deleteListener (nextRef reg)))).
Proof.
  intros W V. unfold registerListener, bind, completion. rewrite V.
  unfold newObject, addListener, ret, setAdd. simpl.
  rewrite (setHas_fresh reg W). reflexivity.
Qed.

Lemma wf_added (reg : ModalEventListeners) (l : EventListener) :
  wf reg -> wf (mkSet (S (nextRef reg)) (members reg ++ [(nextRef reg, l)])).
Proof.
  intros [Hnd Hlt]. split; simpl.
  - rewrite map_app. simpl. apply NoDup_app.
    + exact Hnd.
    + constructor; [intros []|constructor].
    + intros x Hx [<-|[]]. apply in_map_iff in Hx.
      destruct Hx as [m [Hm Hin]].
      exact (wf_not_next reg m (conj Hnd Hlt) Hin Hm).
  - apply Forall_app. split.
    + eapply Forall_impl; [|exact Hlt]. intros m Hm. simpl in *.
      apply Nat.lt_lt_succ_r, Hm.
    + constructor; [apply Nat.lt_succ_diag_r|constructor].
Qed.

Lemma wf_registerListener hash eventName handler reg :
  wf reg ->
  wf (fst (registerListener validateListener hash eventName handler reg)).
Proof.
  intros W. destruct (validateListener ActionAdd eventName handler) eqn:V.
  - rewrite (registerListener_returned _ _ _ _ _ W V). simpl.
    apply wf_added, W.
  - rewrite (registerListener_threw _ _ _ _ _ V). exact W.
Qed.

Lemma wf_applyOp reg op : wf reg -> wf (applyOp validateListener reg op).
Proof.
  intros W. destruct op; simpl.
  - apply wf_registerListener, W.
  - apply wf_deleteListener, W.
  - apply wf_clearListeners, W.
Qed.

(** Every set reached from the empty one is well formed. *)
Lemma wf_applyOps ops reg : wf reg -> wf (applyOps validateListener ops reg).
Proof.
  unfold applyOps. revert reg.
  induction ops as [|op ops IH]; intros reg W; simpl; [exact W|].
  apply IH, wf_applyOp, W.
Qed.

Lemma owns_filter created f reg :
  owns created reg -> owns created (mkSet (nextRef reg) (filter f (members reg))).
Proof.
  intros [W [Hlt Hown]]. split; [apply wf_filter, W|]. split; [exact Hlt|].
  simpl. intros m Hm. apply filter_In in Hm. apply Hown, Hm.
Qed.

Lemma owns_applyOp created reg op :
  owns created reg -> owns created (applyOp validateListener reg op).
Proof.
  intros O. destruct op as [h e v|r|h]; simpl.
  - destruct O as [W [Hlt Hown]].
    destruct (validateListener ActionAdd e v) eqn:V.
    + rewrite (registerListener_returned _ _ _ _ _ W V). simpl.
      split; [apply wf_added, W|]. split; [apply Nat.lt_lt_succ_r, Hlt|].
      simpl. intros m Hm E. apply in_app_or in Hm.
      destruct Hm as [Hm|[<-|[]]]; [apply Hown; assumption|].
      unfold createdBy in E. simpl in E. rewrite <- E in Hlt.
      destruct (Nat.lt_irrefl _ Hlt).
    + rewrite (registerListener_threw _ _ _ _ _ V). simpl.
      split; [exact W|]. split; assumption.
  - unfold deleteListener. simpl. apply owns_filter, O.
  - unfold clearListeners. rewrite clear_fold. apply owns_filter, O.
Qed.

Lemma owns_applyOps created ops reg :
  owns created reg -> owns created (applyOps validateListener ops reg).
Proof.
  unfold applyOps. revert reg.
  induction ops as [|op ops IH]; intros reg O; simpl; [exact O|].
  apply IH, owns_applyOp, O.
Qed.

Lemma owns_created hash eventName handler reg :
  wf reg ->
  owns (createdBy hash eventName handler reg)
       (mkSet (S (nextRef reg))
              (members reg ++ [createdBy hash eventName handler reg])).
Proof.
  intros W. split; [apply wf_added, W|]. split; [apply Nat.lt_succ_diag_r|].
  simpl. intros m Hm E. apply in_app_or in Hm.
  destruct Hm as [Hm|[<-|[]]]; [|reflexivity].
  destruct (wf_not_next reg m W Hm E).
Qed.

End RegistryFacts.

(** ** The claims on the registry *)

(** C6.  [registerListener(hash, eventName, handler)] validates before it
    touches the set: with an empty event name or a handler that is not
    callable the call throws [InvalidListenerError] and the set is left as
    it was; otherwise the set gains one member, the new listener object,
    whose key is scoped to [hash]. *)
Theorem registerListener_validates_then_adds
    (hash eventName : string) (handler : JsValue) (reg : ModalEventListeners) :
  wf reg ->
  if String.eqb eventName "" || negb (callable handler) then
    exists message,
      registerListener Utils.validateListener hash eventName handler reg =
      (reg, Threw (InvalidListenerError message))
  else
    exists disposer,
      registerListener Utils.validateListener hash eventName handler reg =
      (mkSet (S (nextRef reg))
             (members reg ++ [createdBy hash eventName handler reg]),
       Returned disposer) /\
      scopedTo hash (createdBy hash eventName handler reg) /\
      ~ In (createdBy hash eventName handler reg) (members reg).
Proof.
  intros W.
  destruct (String.eqb eventName "") eqn:En; simpl.
  - eexists. apply registerListener_threw.
    unfold Utils.validateListener. rewrite En. reflexivity.
  - destruct (callable handler) eqn:Ec; simpl.
    + eexists. split; [|split].
      * apply registerListener_returned with (u := tt); [exact W|].
        unfold Utils.validateListener. rewrite En, Ec. reflexivity.
      * exists eventName. reflexivity.
      * intros Hin. exact (wf_not_next reg _ W Hin eq_refl).
    + eexists. apply registerListener_threw.
      unfold Utils.validateListener. rewrite En, Ec. reflexivity.
Qed.

Lemma registerListener_validates_then_adds_witness :
  exists message,
    registerListener Utils.validateListener "abc" "" (JsFunction 1)
                     emptyListeners =
    (emptyListeners, Threw (InvalidListenerError message)).
Proof.
  exact (registerListener_validates_then_adds
           "abc" "" (JsFunction 1) emptyListeners wf_emptyListeners).
Defined.

(** C10.  The hash is not validated: whenever the validator accepts the
    event name and the handler, the call returns for every hash, the empty
    one included, and stores a listener whose key is the hash, the
    separator and the event name; under the empty hash the key begins with
    the separator. *)
Theorem registerListener_accepts_every_hash
    (validateListener : ListenerAction -> string -> JsValue -> outcome unit)
    (hash eventName : string) (handler : JsValue) (reg : ModalEventListeners) :
  wf reg ->
  validateListener ActionAdd eventName handler = Returned tt ->
  registerListener validateListener hash eventName handler reg =
    (mkSet (S (nextRef reg))
           (members reg ++
            [(nextRef reg, mkListener (hash ++ "_" ++ eventName) handler)]),
     Returned (mkDisposer (deleteListener (nextRef reg)))) /\
  registerListener validateListener "" eventName handler reg =
    (mkSet (S (nextRef reg))
           (members reg ++
            [(nextRef reg, mkListener (String "_" eventName) handler)]),
     Returned (mkDisposer (deleteListener (nextRef reg)))).
Proof.
  intros W V. split.
  - exact (registerListener_returned _ hash _ _ _ tt W V).
  - exact (registerListener_returned _ "" _ _ _ tt W V).
Qed.

Lemma registerListener_accepts_every_hash_witness :
  registerListener Utils.validateListener "" "onClose" (JsFunction 7)
                   emptyListeners =
  (mkSet 1 [(0, mkListener "_onClose" (JsFunction 7))],
   Returned (mkDisposer (deleteListener 0))).
Proof.
  exact (proj1 (registerListener_accepts_every_hash
                  Utils.validateListener "" "onClose" (JsFunction 7)
                  emptyListeners wf_emptyListeners eq_refl)).
Defined.

(** C7.  The disposer of a successful registration deletes the listener
    object that call created and nothing else, in whatever state the set
    is later: every other member stays, in order, also one with the same
    key and handler; a second [remove] finds nothing, changes nothing and
    returns. *)
Theorem disposer_removes_its_own_listener
    (validateListener : ListenerAction -> string -> JsValue -> outcome unit)
    (hash eventName : string) (handler : JsValue)
    (reg reg1 : ModalEventListeners) (disposer : Disposer)
    (ops : list RegistryOp) :
  wf reg ->
  registerListener validateListener hash eventName handler reg =
    (reg1, Returned disposer) ->
  let created := createdBy hash eventName handler reg in
  let later := applyOps validateListener ops reg1 in
  let after := snd (remove disposer later) in
  In created (members reg1) /\
  (forall m, In m (members after) <-> In m (members later) /\ m <> created) /\
  members after =
    filter (fun m => negb (sameRef (fst created) m)) (members later) /\
  fst (remove disposer later) = setHas (fst created) (members later) /\
  remove disposer after = (false, after).
Proof.
  intros W R created later after.
  destruct (validateListener ActionAdd eventName handler) as [[]|e] eqn:V.
  2:{ rewrite (registerListener_threw _ _ _ _ _ _ V) in R. discriminate. }
  rewrite (registerListener_returned _ _ _ _ _ _ W V) in R.
  injection R as R1 Rd. subst reg1 disposer.
  assert (O : owns created later).
  { apply owns_applyOps, owns_created, W. }
  destruct O as [_ [_ Hown]].
  assert (Hafter : members after =
            filter (fun m => negb (sameRef (fst created) m)) (members later)).
  { reflexivity. }
  split; [simpl; apply in_or_app; right; left; reflexivity|].
  split; [|split; [exact Hafter|split; [reflexivity|]]].
  - intros m. rewrite Hafter, filter_In. split; intros [Hin Hm]; split; auto.
    + intros ->. rewrite (proj2 (sameRef_true _ _) eq_refl) in Hm. discriminate.
    + destruct (sameRef (fst created) m) eqn:E; [|reflexivity].
      apply sameRef_true in E. destruct Hm. apply Hown; assumption.
  - apply deleteListener_twice.
Qed.

Lemma disposer_removes_its_own_listener_witness :
  let twin := (0, mkListener "abc_go" (JsFunction 7)) in
  let reg := mkSet 1 [twin] in
  let reg1 := mkSet 2 [twin; (1, mkListener "abc_go" (JsFunction 7))] in
  let disposer := mkDisposer (deleteListener 1) in
  let later :=
    applyOps Utils.validateListener [Register "zz" "go" (JsFunction 9)] reg1 in
  let after := snd (remove disposer later) in
  registerListener Utils.validateListener "abc" "go" (JsFunction 7) reg =
    (reg1, Returned disposer) /\
  members after = [twin; (2, mkListener "zz_go" (JsFunction 9))] /\
  remove disposer after = (false, after).
Proof.
  intros twin reg reg1 disposer later after.
  assert (W : wf reg).
  { split; simpl; repeat constructor. intros []. }
  assert (R : registerListener Utils.validateListener "abc" "go"
                (JsFunction 7) reg = (reg1, Returned disposer)).
  { reflexivity. }
  destruct (disposer_removes_its_own_listener
              Utils.validateListener "abc" "go" (JsFunction 7) reg reg1
              disposer [Register "zz" "go" (JsFunction 9)] W R)
    as [_ [_ [Hm [_ Hi]]]].
  split; [exact R|]. split; [exact Hm | exact Hi].
Defined.

(** Every entry scoped to a hash goes when the hash is cleared, and an
    emission for the hash then finds nothing. *)
Lemma clearListeners_silences_hash (hash eventName : string)
    (reg : ModalEventListeners) :
  wf reg -> emitted hash eventName (clearListeners hash reg) = [].
Proof.
  intros W. unfold emitted. rewrite (clearListeners_filter hash reg W).
  rewrite filter_twice. apply filter_none. intros m _.
  destruct (String.eqb_spec (event (snd m)) (eventKey hash eventName)) as [E|_].
  - rewrite E, includes_eventKey. reflexivity.
  - apply andb_false_r.
Qed.

Lemma clearListeners_removes_scoped (hash : string) (m : Member)
    (reg : ModalEventListeners) :
  wf reg -> scopedTo hash m -> ~ In m (members (clearListeners hash reg)).
Proof.
  intros W [eventName E] Hin.
  rewrite (clearListeners_filter hash reg W) in Hin.
  apply filter_In in Hin. destruct Hin as [_ Hneg].
  rewrite E, includes_eventKey in Hneg. discriminate.
Qed.

(** Listeners whose key does not include the hash stay, in order. *)
Example clearListeners_keeps_unrelated :
  members (clearListeners "abc"
             (applyOps Utils.validateListener
                [Register "xyz" "go" (JsFunction 1);
                 Register "abc" "go" (JsFunction 2);
                 Register "xyz" "stop" (JsFunction 3)] emptyListeners)) =
  [(0, mkListener "xyz_go" (JsFunction 1));
   (2, mkListener "xyz_stop" (JsFunction 3))].
Proof. reflexivity. Qed.

(** C1.  The code at the failing input: the set holds a listener registered
    under ["abcd"], one under ["xyz"] for the event ["onabc"] and one under
    ["abc"].  Clearing ["abc"] empties the set, although the first two are
    not scoped to ["abc"]; the listener of ["abcd"] is no longer reached by
    an emission for its own hash. *)
Theorem clearListeners_matches_by_substring :
  let reg := applyOps Utils.validateListener
               [Register "abcd" "go" (JsFunction 1);
                Register "xyz" "onabc" (JsFunction 2);
                Register "abc" "go" (JsFunction 3)] emptyListeners in
  let other := (0, mkListener "abcd_go" (JsFunction 1)) in
  let named := (1, mkListener "xyz_onabc" (JsFunction 2)) in
  members reg = [other; named; (2, mkListener "abc_go" (JsFunction 3))] /\
  ~ scopedTo "abc" other /\
  ~ scopedTo "abc" named /\
  emitted "abcd" "go" reg = [other] /\
  members (clearListeners "abc" reg) = [] /\
  emitted "abcd" "go" (clearListeners "abc" reg) = [].
Proof.
  cbv zeta. repeat split; try reflexivity.
  - intros [e E]. discriminate E.
  - intros [e E]. discriminate E.
Qed.

(** C9.  Clearing the empty hash empties the set, whatever hash and event
    name each listener was registered under: every key includes the empty
    string. *)
Theorem clearListeners_empty_hash_clears_all (reg : ModalEventListeners) :
  members (clearListeners "" reg) = [] /\
  forall hash eventName, emitted hash eventName (clearListeners "" reg) = [].
Proof.
  assert (E : members (clearListeners "" reg) = []).
  { unfold clearListeners. simpl. rewrite clear_fold. apply filter_none.
    intros m Hm. apply negb_false_iff, existsb_exists. exists m.
    split; [exact Hm|]. rewrite includes_nil. simpl.
    apply sameRef_true. reflexivity. }
  split; [exact E|]. intros hash eventName. unfold emitted. rewrite E.
  reflexivity.
Qed.

(** The key is a plain concatenation: it tells the hash from the event
    name only as long as the separator is kept for that use. *)
Example eventKey_needs_the_separator_reserved :
  eventKey "a_b" "c" = eventKey "a" "b_c".
Proof. reflexivity. Qed.

(** C2.  The separator is reserved: the validator lets through no event
    name that contains it, or it occurs in neither event name, or in
    neither hash.  Then two registrations with distinct (hash, event name)
    pairs store listeners with distinct keys, and in every set an emission
    for one pair reaches its own listener and never the other's. *)
Theorem distinct_pairs_do_not_cross_fire
    (validateListener : ListenerAction -> string -> JsValue -> outcome unit)
    (h1 e1 h2 e2 : string) (v1 v2 : JsValue)
    (regA regA' regB regB' : ModalEventListeners) (dA dB : Disposer) :
  wf regA -> wf regB ->
  (forall eventName handler,
     validateListener ActionAdd eventName handler = Returned tt ->
     includes eventName separator = false) \/
  (includes e1 separator = false /\ includes e2 separator = false) \/
  (includes h1 separator = false /\ includes h2 separator = false) ->
  (h1, e1) <> (h2, e2) ->
  registerListener validateListener h1 e1 v1 regA = (regA', Returned dA) ->
  registerListener validateListener h2 e2 v2 regB = (regB', Returned dB) ->
  let m1 := createdBy h1 e1 v1 regA in
  let m2 := createdBy h2 e2 v2 regB in
  In m1 (members regA') /\ In m2 (members regB') /\
  event (snd m1) = eventKey h1 e1 /\ event (snd m2) = eventKey h2 e2 /\
  event (snd m1) <> event (snd m2) /\
  forall reg,
    ~ In m2 (emitted h1 e1 reg) /\ ~ In m1 (emitted h2 e2 reg) /\
    (In m1 (members reg) -> In m1 (emitted h1 e1 reg)) /\
    (In m2 (members reg) -> In m2 (emitted h2 e2 reg)).
Proof.
  intros WA WB reserved ne RA RB m1 m2.
  destruct (validateListener ActionAdd e1 v1) as [[]|x] eqn:V1.
  2:{ rewrite (registerListener_threw _ _ _ _ _ _ V1) in RA. discriminate. }
  destruct (validateListener ActionAdd e2 v2) as [[]|x] eqn:V2.
  2:{ rewrite (registerListener_threw _ _ _ _ _ _ V2) in RB. discriminate. }
  assert (free :
    (includes e1 separator = false /\ includes e2 separator = false) \/
    (includes h1 separator = false /\ includes h2 separator = false)).
  { destruct reserved as [only|[F|F]]; [left|left; exact F|right; exact F].
    split; [exact (only e1 v1 V1) | exact (only e2 v2 V2)]. }
  assert (K : eventKey h1 e1 <> eventKey h2 e2).
  { intros E. destruct (eventKey_injective h1 e1 h2 e2 free E) as [-> ->].
    apply ne. reflexivity. }
  rewrite (registerListener_returned _ _ _ _ _ _ WA V1) in RA.
  rewrite (registerListener_returned _ _ _ _ _ _ WB V2) in RB.
  injection RA as <- _. injection RB as <- _.
  split; [simpl; apply in_or_app; right; left; reflexivity|].
  split; [simpl; apply in_or_app; right; left; reflexivity|].
  split; [reflexivity|]. split; [reflexivity|]. split; [exact K|].
  intros reg. unfold emitted. rewrite !filter_In. repeat split.
  - intros [_ E]. apply String.eqb_eq in E. apply K. symmetry. exact E.
  - intros [_ E]. apply String.eqb_eq in E. apply K. exact E.
  - assumption.
  - apply String.eqb_refl.
  - assumption.
  - apply String.eqb_refl.
Qed.

Lemma distinct_pairs_do_not_cross_fire_witness :
  let first := (0, mkListener "abc_go" (JsFunction 1)) in
  let second := (1, mkListener "abcd_go" (JsFunction 2)) in
  let reg := mkSet 2 [first; second] in
  event (snd first) <> event (snd second) /\
  emitted "abc" "go" reg = [first] /\
  ~ In second (emitted "abc" "go" reg) /\
  ~ In first (emitted "abcd" "go" reg).
Proof.
  intros first second reg.
  assert (W1 : wf (mkSet 1 [first])).
  { split; simpl; repeat constructor. intros []. }
  assert (ne : ("abc", "go") <> ("abcd", "go")) by discriminate.
  destruct (distinct_pairs_do_not_cross_fire
              Utils.validateListener "abc" "go" "abcd" "go"
              (JsFunction 1) (JsFunction 2)
              emptyListeners (mkSet 1 [first]) (mkSet 1 [first]) reg
              (mkDisposer (deleteListener 0)) (mkDisposer (deleteListener 1))
              wf_emptyListeners W1
              (or_intror (or_introl (conj eq_refl eq_refl))) ne
              eq_refl eq_refl)
    as [_ [_ [_ [_ [K F]]]]].
  destruct (F reg) as [N2 [N1 _]].
  split; [exact K|]. split; [reflexivity|]. split; [exact N2 | exact N1].
Defined.

(** ** The subscription bridge *)

Section BridgeFacts.

Import ModalContext.

Variables Callback Modal : Type.

Lemma sameCallbacks_refl (a : ModalContextProvider Callback Modal) : sameCallbacks a a.
Proof. repeat split. Qed.

Lemma deliver_sameCallbacks (initial : ModalContextProvider Callback Modal) st n :
  sameCallbacks (contextValue st) initial ->
  sameCallbacks (contextValue (deliver initial st n)) initial.
Proof.
  intros H. destruct n as [[snapshot|] error]; simpl.
  - repeat split.
  - exact H.
Qed.

(** The closures of the displayed value are those of the first render
    however many notifications have been delivered. *)
Lemma deliverAll_sameCallbacks (initial : ModalContextProvider Callback Modal) ns :
  sameCallbacks (contextValue (deliverAll initial ns)) initial.
Proof.
  unfold deliverAll.
  assert (G : forall st, sameCallbacks (contextValue st) initial ->
            sameCallbacks (contextValue (fold_left (deliver initial) ns st))
                          initial).
  { induction ns as [|n ns IH]; intros st H; simpl; [exact H|].
    apply IH, deliver_sameCallbacks, H. }
  apply G, sameCallbacks_refl.
Qed.

(** C4.  After any notifications, a snapshot delivered to the subscribed
    listener makes the displayed context value the previous one with
    [currentModal] and [stack] taken from the snapshot; [closeAllModals],
    [closeModals], [closeModal], [openModal] and [getParam] are those of the
    previous value. *)
Theorem snapshot_overwrites_only_currentModal_and_stack
    (initial : ModalContextProvider Callback Modal) (ns : list (Notification Modal))
    (snapshot : ModalStateSnapshot Modal) (error : JsValue) :
  let previous := deliverAll initial ns in
  let result := subscribedListener initial (Some snapshot) error previous in
  let next := contextValue (fst result) in
  snd result = Returned tt /\
  next = overwrite (contextValue previous) snapshot /\
  currentModal next = snapCurrentModal snapshot /\
  stack next = snapStack snapshot /\
  closeAllModals next = closeAllModals (contextValue previous) /\
  closeModals next = closeModals (contextValue previous) /\
  closeModal next = closeModal (contextValue previous) /\
  openModal next = openModal (contextValue previous) /\
  getParam next = getParam (contextValue previous).
Proof.
  intros previous result next.
  destruct (deliverAll_sameCallbacks initial ns) as [E1 [E2 [E3 [E4 E5]]]].
  fold previous in E1, E2, E3, E4, E5.
  subst next result. unfold subscribedListener, listener, overwrite. simpl.
  rewrite E1, E2, E3, E4, E5. repeat split; reflexivity.
Qed.

(** C5.  An error notification (no snapshot) makes the subscribed listener
    warn on the console and return; the displayed context value is the one
    it was. *)
Theorem error_notification_is_logged_only
    (initial : ModalContextProvider Callback Modal) (st : BridgeState Callback Modal) (error : JsValue) :
  let result := subscribedListener initial None error st in
  snd result = Returned tt /\
  contextValue (fst result) = contextValue st /\
  console (fst result) = console st ++ [ConsoleWarn "Modalfy" error].
Proof. repeat split. Qed.

End BridgeFacts.

(** ** The platform's subscriptions *)

Lemma platform_ignores_store_calls (t : list Call) (subs : list BackPressHandler) :
  fold_left platformStep t subs =
  fold_left platformStep (backHandlerCalls t) subs.
Proof.
  revert subs. induction t as [|c t IH]; intros subs; simpl; [reflexivity|].
  destruct c; simpl; apply IH.
Qed.

Lemma backSubscriptions_calls (t : list Call) :
  backSubscriptions t = backSubscriptions (backHandlerCalls t).
Proof. apply platform_ignores_store_calls. Qed.

Lemma attach_again (n : nat) :
  fold_left platformStep (repeat attachCall n) [HandleBackPress] =
  [HandleBackPress].
Proof. induction n as [|n IH]; simpl; [reflexivity | exact IH]. Qed.

(** However many times the store's function is added, it is subscribed
    once. *)
Lemma backSubscriptions_attaches (t : list Call) (n : nat) :
  backHandlerCalls t = repeat attachCall n ->
  backSubscriptions t = if Nat.eqb n 0 then [] else [HandleBackPress].
Proof.
  intros E. rewrite backSubscriptions_calls, E. unfold backSubscriptions.
  destruct n as [|n]; simpl; [reflexivity | apply attach_again].
Qed.

Lemma backHandlerCalls_app (t u : list Call) :
  backHandlerCalls (t ++ u) = backHandlerCalls t ++ backHandlerCalls u.
Proof. unfold backHandlerCalls. apply filter_app. Qed.

Lemma repeat_snoc {A} (a : A) (n : nat) : repeat a n ++ [a] = repeat a (S n).
Proof. symmetry. apply (repeat_cons n a). Qed.

(** ** The provider's calls *)

Section ProviderFacts.

Context {St : Type} {methods : ModalState.Store St}.

Lemma onStore_eq {A} (c : Call) (method : St -> St * outcome A) (w : World St) :
  onStore c method w =
  (mkWorld (fst (method (store w))) (trace w ++ [c]) (modalStateSubscription w),
   snd (method (store w))).
Proof.
  unfold onStore, bind, call. simpl. destruct (method (store w)); reflexivity.
Qed.

Lemma openModal_eq (modalName : string) (params : ModalState.Params)
    (w : World St) :
  openModal modalName params w =
  onStore (StoreOpenModal modalName params)
          (ModalState.openModal modalName params)
          (mkWorld (store w)
                   (trace w ++ attachBy (OpOpenModal modalName params) w)
                   (modalStateSubscription w)).
Proof.
  unfold openModal, bind, getState_currentModal, attachBy, ret, call.
  destruct (ModalState.currentModal (store w)); simpl.
  - rewrite app_nil_r. destruct w; reflexivity.
  - reflexivity.
Qed.

(** An operation adds to the provider's calls to [BackHandler] the attach
    of [openModal] on a store without a current modal, and nothing else. *)
Lemma step_backHandlerCalls (op : Operation) (w : World St) :
  backHandlerCalls (trace (step w op)) =
  backHandlerCalls (trace w) ++ attachBy op w.
Proof.
  unfold step. destruct op; cbn [perform attachBy].
  - rewrite openModal_eq, onStore_eq. cbn [fst trace].
    rewrite !backHandlerCalls_app. cbn [backHandlerCalls filter isStoreCall negb].
    rewrite app_nil_r. f_equal. unfold attachBy.
    destruct (ModalState.currentModal (store w)); reflexivity.
  - unfold discard, bind, getParam. rewrite onStore_eq.
    destruct (snd _); cbn [fst trace ret]; rewrite backHandlerCalls_app;
      reflexivity.
  - unfold closeModal. rewrite onStore_eq. cbn [fst trace].
    rewrite backHandlerCalls_app. reflexivity.
  - unfold closeModals. rewrite onStore_eq. cbn [fst trace].
    rewrite backHandlerCalls_app. reflexivity.
  - unfold closeAllModals. rewrite onStore_eq. cbn [fst trace].
    rewrite backHandlerCalls_app. reflexivity.
  - unfold discard, bind, hardwareBackPress.
    destruct (attached (trace w)).
    + rewrite onStore_eq. destruct (snd _); cbn [fst trace ret];
        rewrite backHandlerCalls_app; reflexivity.
    + cbn [fst ret]. rewrite app_nil_r. reflexivity.
Qed.

Lemma attachBy_cases (op : Operation) (w : World St) :
  (attachBy op w = [] /\
   ((exists n p, op = OpOpenModal n p) ->
    ModalState.currentModal (store w) <> None)) \/
  (attachBy op w = [attachCall] /\
   (exists n p, op = OpOpenModal n p) /\
   ModalState.currentModal (store w) = None).
Proof.
  destruct op; simpl; try (left; split; [reflexivity|]; intros [n [p E]];
                           discriminate).
  destruct (ModalState.currentModal (store w)).
  - left. split; [reflexivity|]. intros _. discriminate.
  - right. split; [reflexivity|]. split; [eauto | reflexivity].
Qed.

(** Operations only add attaches to the calls to [BackHandler]. *)
Lemma run_backHandlerCalls (ops : list Operation) (w : World St) :
  exists k,
    backHandlerCalls (trace (run ops w)) =
    backHandlerCalls (trace w) ++ repeat attachCall k.
Proof.
  revert w. induction ops as [|op ops IH]; intros w.
  - exists 0. simpl. rewrite app_nil_r. reflexivity.
  - destruct (IH (step w op)) as [k E]. change (run (op :: ops) w)
      with (run ops (step w op)). rewrite E, step_backHandlerCalls.
    destruct (attachBy_cases op w) as [[-> _]|[-> _]].
    + exists k. rewrite app_nil_r. reflexivity.
    + exists (S k). rewrite <- app_assoc. reflexivity.
Qed.

Context {laws : ModalState.Lawful St}.

(** No operation but [openModal] gives a store a current modal. *)
Lemma step_currentModal_none (op : Operation) (w : World St) :
  ModalState.currentModal (store w) = None ->
  (forall n p, op <> OpOpenModal n p) ->
  ModalState.currentModal (store (step w op)) = None.
Proof.
  intros N notOpen. unfold step.
  destruct op; cbn [perform].
  - destruct (notOpen modalName params eq_refl).
  - unfold discard, bind, getParam. rewrite onStore_eq.
    destruct (snd _); cbn [fst store ret];
      apply ModalState.getParam_none, N.
  - unfold closeModal. rewrite onStore_eq.
    apply ModalState.closeModal_none, N.
  - unfold closeModals. rewrite onStore_eq.
    apply ModalState.closeModals_none, N.
  - unfold closeAllModals. rewrite onStore_eq.
    apply ModalState.closeAllModals_none, N.
  - unfold discard, bind, hardwareBackPress.
    destruct (attached (trace w)).
    + rewrite onStore_eq. destruct (snd _); cbn [fst store ret];
        apply ModalState.handleBackPress_none, N.
    + exact N.
Qed.

Lemma step_attachedWhileOpen (op : Operation) (w : World St) :
  attachedWhileOpen w -> attachedWhileOpen (step w op).
Proof.
  intros [n [E Hn]]. unfold attachedWhileOpen.
  rewrite step_backHandlerCalls, E.
  destruct (attachBy_cases op w) as [[-> notOpen]|[-> _]].
  - exists n. rewrite app_nil_r. split; [reflexivity|]. intros Z.
    apply step_currentModal_none; [exact (Hn Z)|].
    intros m p ->. apply notOpen; [eauto | exact (Hn Z)].
  - exists (S n). rewrite repeat_snoc. split; [reflexivity|]. discriminate.
Qed.

Lemma run_attachedWhileOpen (ops : list Operation) (w : World St) :
  attachedWhileOpen w -> attachedWhileOpen (run ops w).
Proof.
  revert w. induction ops as [|op ops IH]; intros w I; [exact I|].
  apply IH, step_attachedWhileOpen, I.
Qed.

Variable invariant : bool -> Error -> outcome unit.

(** A mount that returns has initialised the store and subscribed, in that
    order, and made no other call; the store has no current modal. *)
Lemma mount_returned (stack : option ModalStack) (w0 w : World St) :
  mount invariant stack w0 = (w, Returned tt) ->
  ModalState.currentModal (store w) = None /\
  trace w = trace w0 ++ [StoreInit stack; StoreSubscribe].
Proof.
  unfold mount, bind, completion.
  destruct (invariant (truthy stack) stackMissing) as [[]|e]; [|discriminate].
  rewrite onStore_eq.
  destruct (ModalState.init stack (store w0)) as [s1 [[]|e]] eqn:I;
    cbn [fst snd]; [|discriminate].
  rewrite onStore_eq. cbn [store trace modalStateSubscription].
  pose proof (ModalState.subscribe_currentModal s1) as Sb.
  destruct (ModalState.subscribe s1) as [s2 [sub|e]];
    cbn [fst snd] in *; [|discriminate].
  unfold setSubscription. cbn [store trace]. intros M.
  injection M as <-. cbn [store trace]. split.
  - rewrite Sb. exact (ModalState.init_currentModal _ _ _ I).
  - rewrite <- app_assoc. reflexivity.
Qed.

End ProviderFacts.

Lemma attached_attaches (t : list Call) (n : nat) :
  backHandlerCalls t = repeat attachCall n ->
  attached t = negb (Nat.eqb n 0).
Proof.
  intros E. unfold attached. rewrite (backSubscriptions_attaches t n E).
  destruct n; reflexivity.
Qed.

Section Lifecycle.

Context {St : Type} {methods : ModalState.Store St}.

(** [cleanup] detaches first; whatever else it calls is a store method. *)
Lemma cleanup_backHandlerCalls (w : World St) :
  backHandlerCalls (trace (fst (cleanup w))) =
  backHandlerCalls (trace w) ++
  [BackHandlerRemove "hardwareBackPress" HandleBackPress].
Proof.
  unfold cleanup, bind, call. cbn [modalStateSubscription].
  destruct (modalStateSubscription w) as [sub|].
  - rewrite onStore_eq. cbn [fst trace]. rewrite !backHandlerCalls_app.
    cbn [backHandlerCalls filter isStoreCall negb]. rewrite app_nil_r.
    reflexivity.
  - cbn [fst ret trace]. rewrite backHandlerCalls_app. reflexivity.
Qed.

Lemma cleanup_detaches (w : World St) (n : nat) :
  backHandlerCalls (trace w) = repeat attachCall n ->
  attached (trace (fst (cleanup w))) = false.
Proof.
  intros E. unfold attached.
  rewrite backSubscriptions_calls, cleanup_backHandlerCalls.
  unfold backSubscriptions. rewrite fold_left_app.
  change (fold_left platformStep (backHandlerCalls (trace w)) [])
    with (backSubscriptions (backHandlerCalls (trace w))).
  rewrite <- backSubscriptions_calls, (backSubscriptions_attaches _ n E).
  destruct n; reflexivity.
Qed.

Context {laws : ModalState.Lawful St}.

Variable invariant : bool -> Error -> outcome unit.

(** C3.  In a mounted root, over every sequence of operations: the handler
    is not attached at mount; an operation calls [BackHandler] only when it
    is [openModal] on a store without a current modal, and then to attach;
    no other operation attaches or detaches; the store's function is
    subscribed at most once; while the store has a current modal it is
    subscribed and a hardware back press calls [handleBackPress]; after any
    [openModal] it is subscribed, and once subscribed it stays so over all
    further operations; [cleanup], at unmount, detaches it. *)
Theorem hardware_back_handler_lifecycle
    (s0 : St) (stack : option ModalStack) (w : World St)
    (ops : list Operation) :
  mount invariant stack (beforeMount s0) = (w, Returned tt) ->
  let now := run ops w in
  attached (trace w) = false /\
  (forall modalName params,
     backHandlerCalls (trace (step now (OpOpenModal modalName params))) =
     backHandlerCalls (trace now) ++
     match ModalState.currentModal (store now) with
     | None => [BackHandlerAdd "hardwareBackPress" HandleBackPress]
     | Some _ => []
     end) /\
  (forall op,
     (forall modalName params, op <> OpOpenModal modalName params) ->
     backHandlerCalls (trace (step now op)) = backHandlerCalls (trace now)) /\
  (backSubscriptions (trace now) = [] \/
   backSubscriptions (trace now) = [HandleBackPress]) /\
  (ModalState.currentModal (store now) <> None ->
   attached (trace now) = true /\
   hardwareBackPress now =
   onStore StoreHandleBackPress ModalState.handleBackPress now) /\
  (forall modalName params,
     attached (trace (step now (OpOpenModal modalName params))) = true) /\
  (forall more,
     attached (trace now) = true -> attached (trace (run more now)) = true) /\
  attached (trace (fst (cleanup now))) = false.
Proof.
  intros M now.
  destruct (mount_returned invariant stack _ _ M) as [N T].
  cbn [beforeMount trace app] in T.
  assert (I0 : attachedWhileOpen w).
  { exists 0. rewrite T. split; [reflexivity | intros _; exact N]. }
  destruct (run_attachedWhileOpen ops w I0) as [n [E Hn]].
  fold now in E, Hn.
  split; [rewrite T; reflexivity|].
  split.
  { intros modalName params.
    exact (step_backHandlerCalls (OpOpenModal modalName params) now). }
  split.
  { intros op notOpen. rewrite step_backHandlerCalls.
    destruct (attachBy_cases op now) as [[-> _]|[_ [[m [p ->]] _]]].
    - apply app_nil_r.
    - destruct (notOpen m p eq_refl). }
  split.
  { rewrite (backSubscriptions_attaches _ n E). destruct n; auto. }
  split.
  { intros Open. assert (A : attached (trace now) = true).
    { rewrite (attached_attaches _ n E). destruct n; [|reflexivity].
      destruct (Open (Hn eq_refl)). }
    split; [exact A|]. unfold hardwareBackPress. rewrite A. reflexivity. }
  split.
  { intros modalName params.
    pose proof (step_backHandlerCalls (OpOpenModal modalName params) now) as C.
    rewrite E in C. cbn [attachBy] in C.
    destruct (ModalState.currentModal (store now)) eqn:Cur.
    - rewrite app_nil_r in C. rewrite (attached_attaches _ n C).
      destruct n; [|reflexivity]. discriminate (Hn eq_refl).
    - rewrite repeat_snoc in C. rewrite (attached_attaches _ (Datatypes.S n) C).
      reflexivity. }
  split.
  { intros more A. destruct (run_backHandlerCalls more now) as [k C].
    rewrite E, <- repeat_app in C. rewrite (attached_attaches _ _ C).
    rewrite (attached_attaches _ n E) in A. destruct n; [discriminate|].
    reflexivity. }
  exact (cleanup_detaches now n E).
Qed.

End Lifecycle.

(** C8.  Mounted without a [stack] prop, the effect throws the configuration
    error at the assertion: the store is neither initialised nor subscribed
    to, no call is made and the world is as it was. *)
Theorem mount_without_stack_fails_fast
    {St : Type} {methods : ModalState.Store St} (w : World St) :
  mount Utils.invariant None w = (w, Threw stackMissing) /\
  filter isStoreCall (trace (fst (mount Utils.invariant None w))) =
  filter isStoreCall (trace w).
Proof. split; reflexivity. Qed.

(** ** The store of the specification is lawful *)

Lemma topmost_none (items : list ModalState.StackItem) :
  SpecStore.topmost items = None -> items = [].
Proof.
  induction items as [|i items IH]; [reflexivity|].
  destruct items as [|j items]; simpl; [discriminate|].
  intros H. discriminate (IH H).
Qed.

Lemma current_none (s : SpecStore.State) :
  SpecStore.current s = None -> SpecStore.stack s = [].
Proof. apply topmost_none. Qed.

#[global] Instance specStore_lawful : ModalState.Lawful SpecStore.State.
Proof.
  constructor; cbn [ModalState.currentModal ModalState.init
                    ModalState.subscribe ModalState.getParam
                    ModalState.closeModal ModalState.closeModals
                    ModalState.closeAllModals ModalState.handleBackPress
                    SpecStore.specStore].
  - intros d s s' E. injection E as <-. reflexivity.
  - intros s. reflexivity.
  - intros h p d s N. exact N.
  - intros i s N. unfold SpecStore.specCloseModal, SpecStore.current.
    cbn [fst SpecStore.stack]. rewrite (current_none s N). reflexivity.
  - intros n s N. unfold SpecStore.specCloseModals, SpecStore.current.
    cbn [fst SpecStore.stack]. rewrite (current_none s N). reflexivity.
  - intros s _. reflexivity.
  - intros s N. unfold SpecStore.specHandleBackPress.
    rewrite (current_none s N). exact N.
Qed.

(** The scenario of the specification, through the provider: opening
    ["Alert"], a hardware back press, opening again.  The provider attaches
    twice; the platform holds one subscription; one modal is open. *)
Example open_back_open :
  let w := fst (mount Utils.invariant (Some ["Alert"])
                      (beforeMount SpecStore.uninitialized)) in
  let now := run [OpOpenModal "Alert" []; OpHardwareBackPress;
                  OpOpenModal "Alert" []] w in
  trace now = [StoreInit (Some ["Alert"]); StoreSubscribe;
               attachCall; StoreOpenModal "Alert" [];
               StoreHandleBackPress;
               attachCall; StoreOpenModal "Alert" []] /\
  backSubscriptions (trace now) = [HandleBackPress] /\
  SpecStore.stack (store now) = [ModalState.mkItem "Alert_1" "Alert" []] /\
  SpecStore.stack (store (step now OpHardwareBackPress)) = [].
Proof. cbv zeta. repeat split; reflexivity. Qed.

Lemma hardware_back_handler_lifecycle_witness :
  let w := fst (mount Utils.invariant (Some ["Alert"])
                      (beforeMount SpecStore.uninitialized)) in
  let now := run [OpOpenModal "Alert" []; OpHardwareBackPress;
                  OpOpenModal "Alert" []] w in
  attached (trace w) = false /\
  (backSubscriptions (trace now) = [] \/
   backSubscriptions (trace now) = [HandleBackPress]) /\
  attached (trace (fst (cleanup now))) = false.
Proof.
  intros w now.
  assert (M : mount Utils.invariant (Some ["Alert"])
                    (beforeMount SpecStore.uninitialized) = (w, Returned tt)).
  { reflexivity. }
  destruct (hardware_back_handler_lifecycle
              Utils.invariant SpecStore.uninitialized (Some ["Alert"]) w
              [OpOpenModal "Alert" []; OpHardwareBackPress;
               OpOpenModal "Alert" []] M)
    as [A [_ [_ [B [_ [_ [_ C]]]]]]].
  split; [exact A|]. split; [exact B | exact C].
Defined.

(** * Further properties of the registry *)

Lemma append_assoc (a b c : string) :
  ((a ++ b) ++ c)%string = (a ++ b ++ c)%string.
Proof. induction a as [|x a IH]; simpl; [reflexivity | rewrite IH; reflexivity]. Qed.

Lemma prefix_split (sub s : string) :
  prefix sub s = true -> exists rest, s = (sub ++ rest)%string.
Proof.
  revert s. induction sub as [|c sub IH]; intros s P.
  - exists s. reflexivity.
  - destruct s as [|d s]; simpl in P; [discriminate|].
    destruct (ascii_dec c d) as [->|_]; [|discriminate].
    destruct (IH s P) as [rest ->]. exists rest. reflexivity.
Qed.

(** [includes] decides occurrence. *)
Lemma includes_occursIn (s sub : string) :
  includes s sub = true <-> occursIn sub s.
Proof.
  split.
  - induction s as [|c s IH]; cbn [includes];
      destruct (prefix sub _) eqn:P; intros H.
    + destruct (prefix_split _ _ P) as [rest E]. exists "", rest. exact E.
    + discriminate.
    + destruct (prefix_split _ _ P) as [rest E]. exists "", rest. exact E.
    + destruct (IH H) as [before [after ->]].
      exists (String c before), after. reflexivity.
  - intros [before [after ->]]. apply includes_middle.
Qed.

Lemma occursIn_eventKey (sub hash eventName : string) :
  occursIn sub hash \/ occursIn sub eventName ->
  occursIn sub (eventKey hash eventName).
Proof.
  unfold eventKey. intros [[before [after ->]]|[before [after ->]]].
  - exists before, (after ++ separator ++ eventName)%string.
    rewrite !append_assoc. reflexivity.
  - exists (hash ++ separator ++ before)%string, after.
    rewrite !append_assoc. reflexivity.
Qed.

Lemma clearListeners_eq (hash : string) (reg : ModalEventListeners) :
  wf reg ->
  clearListeners hash reg =
  mkSet (nextRef reg)
        (filter (fun m => negb (includes (event (snd m)) hash)) (members reg)).
Proof.
  intros W. pose proof (clearListeners_filter hash reg W) as E.
  unfold clearListeners in *. cbn [members] in E. rewrite E. reflexivity.
Qed.

(** X1.  On the set of a provider, [clearListeners(hash)] keeps the
    listeners in whose key [hash] does not occur, in their order, and
    deletes all the others; it allocates nothing. *)
Theorem clearListeners_keeps_keys_without_hash
    (hash : string) (reg : ModalEventListeners) :
  wf reg ->
  (forall m, In m (members (clearListeners hash reg)) <->
             In m (members reg) /\ ~ occursIn hash (event (snd m))) /\
  members (clearListeners hash reg) =
    filter (fun m => negb (includes (event (snd m)) hash)) (members reg) /\
  nextRef (clearListeners hash reg) = nextRef reg.
Proof.
  intros W. rewrite (clearListeners_eq hash reg W). cbn [members nextRef].
  split; [|split; reflexivity].
  intros m. rewrite filter_In, negb_true_iff, <- includes_occursIn.
  split; intros [Hin Hk]; split; auto.
  - rewrite Hk. discriminate.
  - apply not_true_is_false, Hk.
Qed.

Lemma clearListeners_keeps_keys_without_hash_witness :
  let reg := mkSet 3 [(0, mkListener "xyz_go" (JsFunction 1));
                      (1, mkListener "abc_go" (JsFunction 2));
                      (2, mkListener "xyz_stop" (JsFunction 3))] in
  members (clearListeners "abc" reg) =
  [(0, mkListener "xyz_go" (JsFunction 1));
   (2, mkListener "xyz_stop" (JsFunction 3))].
Proof.
  intros reg.
  assert (W : wf reg).
  { split; simpl; repeat constructor; simpl; intuition discriminate. }
  exact (proj1 (proj2 (clearListeners_keeps_keys_without_hash "abc" reg W))).
Defined.

(** X2.  [clearListeners(hash)] deletes every listener registered under a
    hash in which [hash] occurs, so every listener registered under [hash]
    itself, and every listener registered for an event name in which
    [hash] occurs. *)
Theorem clearListeners_deletes_where_hash_occurs
    (hash other eventName : string) (handler : JsValue) (r : Ref)
    (reg : ModalEventListeners) :
  wf reg ->
  occursIn hash other \/ occursIn hash eventName ->
  ~ In (r, mkListener (eventKey other eventName) handler)
       (members (clearListeners hash reg)) /\
  ~ In (r, mkListener (eventKey hash eventName) handler)
       (members (clearListeners hash reg)).
Proof.
  intros W Occ. rewrite (clearListeners_eq hash reg W). cbn [members].
  split; intros Hin; apply filter_In in Hin; destruct Hin as [_ Hk];
    cbn [snd event] in Hk; apply negb_true_iff in Hk.
  - rewrite (proj2 (includes_occursIn _ _) (occursIn_eventKey _ _ _ Occ)) in Hk.
    discriminate.
  - rewrite includes_eventKey in Hk. discriminate.
Qed.

Lemma clearListeners_deletes_where_hash_occurs_witness :
  let reg := mkSet 2 [(0, mkListener "abcd_go" (JsFunction 1));
                      (1, mkListener "xyz_go" (JsFunction 2))] in
  ~ In (0, mkListener "abcd_go" (JsFunction 1))
       (members (clearListeners "abc" reg)).
Proof.
  intros reg.
  assert (W : wf reg).
  { split; simpl; repeat constructor; simpl; intuition discriminate. }
  assert (Occ : occursIn "abc" "abcd" \/ occursIn "abc" "go").
  { left. exists "", "d". reflexivity. }
  exact (proj1 (clearListeners_deletes_where_hash_occurs
                  "abc" "abcd" "go" (JsFunction 1) 0 reg W Occ)).
Defined.

Lemma filter_swap {A} (f g : A -> bool) (l : list A) :
  filter f (filter g l) = filter g (filter f l).
Proof.
  rewrite !filter_twice. apply filter_ext. intros x. apply andb_comm.
Qed.

(** X3.  Clearing a hash a second time changes nothing, and clearing two
    hashes gives the same set in either order. *)
Theorem clearListeners_idempotent_and_commutes
    (h1 h2 : string) (reg : ModalEventListeners) :
  wf reg ->
  clearListeners h1 (clearListeners h1 reg) = clearListeners h1 reg /\
  clearListeners h1 (clearListeners h2 reg) =
  clearListeners h2 (clearListeners h1 reg).
Proof.
  intros W.
  rewrite (clearListeners_eq h1 (clearListeners h1 reg) (wf_clearListeners _ _ W)).
  rewrite (clearListeners_eq h1 (clearListeners h2 reg) (wf_clearListeners _ _ W)).
  rewrite (clearListeners_eq h2 (clearListeners h1 reg) (wf_clearListeners _ _ W)).
  rewrite (clearListeners_eq h1 reg W), (clearListeners_eq h2 reg W).
  cbn [members nextRef]. split; f_equal.
  - rewrite filter_twice. apply filter_ext. intros m. apply andb_diag.
  - apply filter_swap.
Qed.

Lemma clearListeners_idempotent_and_commutes_witness :
  let reg := mkSet 3 [(0, mkListener "xyz_go" (JsFunction 1));
                      (1, mkListener "abc_go" (JsFunction 2));
                      (2, mkListener "klm_go" (JsFunction 3))] in
  clearListeners "abc" (clearListeners "xyz" reg) =
  clearListeners "xyz" (clearListeners "abc" reg).
Proof.
  intros reg.
  assert (W : wf reg).
  { split; simpl; repeat constructor; simpl; intuition discriminate. }
  exact (proj2 (clearListeners_idempotent_and_commutes "abc" "xyz" reg W)).
Defined.

(** X4.  A listener registered under a hash is gone once that hash is
    cleared: the set is the one clearing would have left without the
    registration, and the listener's disposer then finds nothing, changes
    nothing and returns. *)
Theorem clearListeners_undoes_registerListener
    (validateListener : ListenerAction -> string -> JsValue -> outcome unit)
    (hash eventName : string) (handler : JsValue)
    (reg reg1 : ModalEventListeners) (disposer : Disposer) :
  wf reg ->
  registerListener validateListener hash eventName handler reg =
    (reg1, Returned disposer) ->
  members (clearListeners hash reg1) = members (clearListeners hash reg) /\
  remove disposer (clearListeners hash reg1) =
    (false, clearListeners hash reg1).
Proof.
  intros W R.
  destruct (validateListener ActionAdd eventName handler) as [[]|e] eqn:V.
  2:{ rewrite (registerListener_threw _ _ _ _ _ _ V) in R. discriminate. }
  rewrite (registerListener_returned _ _ _ _ _ _ W V) in R.
  injection R as <- <-.
  set (reg1 := mkSet (S (nextRef reg))
                     (members reg ++ [createdBy hash eventName handler reg])).
  assert (W1 : wf reg1) by apply wf_added, W.
  assert (M : members (clearListeners hash reg1) =
              members (clearListeners hash reg)).
  { rewrite (clearListeners_eq hash reg1 W1), (clearListeners_eq hash reg W).
    cbn [members reg1]. rewrite filter_app. cbn [filter createdBy snd event].
    rewrite includes_eventKey. apply app_nil_r. }
  split; [exact M|].
  cbn [remove]. unfold deleteListener, setDelete.
  assert (F : forall m, In m (members (clearListeners hash reg1)) ->
                        negb (sameRef (nextRef reg) m) = true).
  { intros m Hin. rewrite M, (clearListeners_eq hash reg W) in Hin.
    cbn [members] in Hin. apply filter_In in Hin. destruct Hin as [Hin _].
    apply negb_true_iff, not_true_is_false. intros E.
    apply sameRef_true in E. exact (wf_not_next reg m W Hin E). }
  rewrite (filter_all _ _ F). f_equal.
  unfold setHas. apply not_true_is_false. intros Hex.
  apply existsb_exists in Hex. destruct Hex as [m [Hin Hm]].
  rewrite (proj1 (negb_true_iff _) (F m Hin)) in Hm. discriminate.
Qed.

Lemma clearListeners_undoes_registerListener_witness :
  let reg := mkSet 1 [(0, mkListener "xyz_go" (JsFunction 1))] in
  let reg1 := mkSet 2 [(0, mkListener "xyz_go" (JsFunction 1));
                       (1, mkListener "abc_go" (JsFunction 2))] in
  members (clearListeners "abc" reg1) = members (clearListeners "abc" reg) /\
  deleteListener 1 (clearListeners "abc" reg1) =
    (false, clearListeners "abc" reg1).
Proof.
  intros reg reg1.
  assert (W : wf reg).
  { split; simpl; repeat constructor; simpl; intuition discriminate. }
  exact (clearListeners_undoes_registerListener
           Utils.validateListener "abc" "go" (JsFunction 2) reg reg1
           (mkDisposer (deleteListener 1)) W eq_refl).
Defined.

Lemma sameRef_refl (r : Ref) (l : EventListener) : sameRef r (r, l) = true.
Proof. unfold sameRef. cbn [fst]. apply Nat.eqb_refl. Qed.

(** X5.  Registering a listener and calling its disposer at once gives back
    the members the set had, in their order; [remove] reports that it
    found the listener. *)
Theorem remove_undoes_registerListener
    (validateListener : ListenerAction -> string -> JsValue -> outcome unit)
    (hash eventName : string) (handler : JsValue)
    (reg reg1 : ModalEventListeners) (disposer : Disposer) :
  wf reg ->
  registerListener validateListener hash eventName handler reg =
    (reg1, Returned disposer) ->
  fst (remove disposer reg1) = true /\
  members (snd (remove disposer reg1)) = members reg.
Proof.
  intros W R.
  destruct (validateListener ActionAdd eventName handler) as [[]|e] eqn:V.
  2:{ rewrite (registerListener_threw _ _ _ _ _ _ V) in R. discriminate. }
  rewrite (registerListener_returned _ _ _ _ _ _ W V) in R.
  injection R as <- <-.
  cbn [remove]. unfold deleteListener, setDelete. cbn [fst snd members].
  split.
  - unfold setHas, createdBy. rewrite existsb_app. cbn [existsb].
    rewrite sameRef_refl, orb_true_r. reflexivity.
  - unfold createdBy. rewrite filter_app. cbn [filter].
    rewrite sameRef_refl. cbn [negb]. rewrite app_nil_r.
    apply filter_all. intros m Hin.
    apply negb_true_iff, not_true_is_false. intros E.
    apply sameRef_true in E. exact (wf_not_next reg m W Hin E).
Qed.

Lemma remove_undoes_registerListener_witness :
  let reg := mkSet 1 [(0, mkListener "abc_go" (JsFunction 1))] in
  members (snd (deleteListener 1
                  (mkSet 2 [(0, mkListener "abc_go" (JsFunction 1));
                            (1, mkListener "abc_go" (JsFunction 1))]))) =
  members reg.
Proof.
  intros reg.
  assert (W : wf reg).
  { split; simpl; repeat constructor; simpl; intuition discriminate. }
  exact (proj2 (remove_undoes_registerListener
                  Utils.validateListener "abc" "go" (JsFunction 1) reg _
                  (mkDisposer (deleteListener 1)) W eq_refl)).
Defined.

(** X6.  Over any sequence of [registerListener] calls the set grows by one
    member for each call the validator accepts, identical arguments
    included, and by none for a call it rejects; as many references are
    allocated. *)
Theorem registrations_are_counted
    (validateListener : ListenerAction -> string -> JsValue -> outcome unit)
    (calls : list Registration) (reg : ModalEventListeners) :
  wf reg ->
  let after := applyOps validateListener (map registerOp calls) reg in
  List.length (members after) =
    List.length (members reg) +
    List.length (filter (accepted validateListener) calls) /\
  nextRef after =
    nextRef reg + List.length (filter (accepted validateListener) calls).
Proof.
  revert reg. induction calls as [|[[h e] v] calls IH]; intros reg W.
  - cbn. rewrite !Nat.add_0_r. split; reflexivity.
  - cbn [map registerOp applyOps fold_left applyOp filter accepted].
    pose proof (wf_registerListener validateListener h e v reg W) as W1.
    destruct (IH _ W1) as [L N]. unfold applyOps in L, N.
    cbv zeta. unfold applyOps. rewrite L, N.
    destruct (validateListener ActionAdd e v) as [[]|x] eqn:V.
    + rewrite (registerListener_returned _ _ _ _ _ _ W V).
      cbn [fst members nextRef]. rewrite length_app. cbn [List.length].
      split; lia.
    + rewrite (registerListener_threw _ _ _ _ _ _ V). cbn [fst].
      split; reflexivity.
Qed.

Lemma registrations_are_counted_witness :
  List.length
    (members
       (applyOps Utils.validateListener
          (map registerOp [("abc", "go", JsFunction 1);
                           ("abc", "", JsFunction 1);
                           ("abc", "go", JsFunction 1);
                           ("abc", "go", JsNull)])
          emptyListeners)) = 2.
Proof.
  exact (proj1 (registrations_are_counted
                  Utils.validateListener
                  [("abc", "go", JsFunction 1); ("abc", "", JsFunction 1);
                   ("abc", "go", JsFunction 1); ("abc", "go", JsNull)]
                  emptyListeners wf_emptyListeners)).
Defined.

(** * Further properties of the subscription bridge *)

Section BridgeHistory.

Import ModalContext.

Variables Callback Modal : Type.

Lemma deliver_follows (initial : ModalContextProvider Callback Modal)
    (ns : list (Notification Modal)) st seen :
  contextValue st = match seen with
                    | Some snapshot => overwrite initial snapshot
                    | None => initial
                    end ->
  contextValue (fold_left (deliver initial) ns st) =
  match fold_left (fun seen n => match fst n with
                                 | Some snapshot => Some snapshot
                                 | None => seen
                                 end) ns seen with
  | Some snapshot => overwrite initial snapshot
  | None => initial
  end.
Proof.
  revert st seen. induction ns as [|[[snapshot|] error] ns IH];
    intros st seen H; cbn [fold_left fst].
  - exact H.
  - apply IH. reflexivity.
  - apply IH. exact H.
Qed.

(** X7.  What the root displays after any notifications is the first
    render's context value with [currentModal] and [stack] of the last
    snapshot delivered; before any snapshot, and whatever errors were
    delivered, it is the first render's value unchanged. *)
Theorem displayed_value_follows_last_snapshot
    (initial : ModalContextProvider Callback Modal)
    (ns : list (Notification Modal)) :
  contextValue (deliverAll initial ns) =
  match lastSnapshot ns with
  | Some snapshot => overwrite initial snapshot
  | None => initial
  end.
Proof.
  unfold deliverAll, lastSnapshot. apply deliver_follows. reflexivity.
Qed.

Lemma deliver_console (initial : ModalContextProvider Callback Modal)
    (ns : list (Notification Modal)) st :
  console (fold_left (deliver initial) ns st) = console st ++ warnings ns.
Proof.
  revert st. induction ns as [|[[snapshot|] error] ns IH]; intros st;
    cbn [fold_left warnings flat_map fst snd].
  - symmetry. apply app_nil_r.
  - rewrite IH. reflexivity.
  - rewrite IH. cbn [deliver subscribedListener listener fst snd console].
    rewrite <- app_assoc. reflexivity.
Qed.

(** X8.  The subscribed listener warns once for each notification without
    a snapshot, with the label ['Modalfy'] and that notification's error,
    in the order of delivery; a notification with a snapshot writes
    nothing. *)
Theorem console_holds_one_warning_per_error
    (initial : ModalContextProvider Callback Modal)
    (ns : list (Notification Modal)) :
  console (deliverAll initial ns) = warnings ns.
Proof. unfold deliverAll. rewrite deliver_console. reflexivity. Qed.

End BridgeHistory.

(** * Further properties of the provider's calls *)

Lemma attached_after_attach (t : list Call) (c : Call) :
  isStoreCall c = true -> attached (t ++ [attachCall; c]) = true.
Proof.
  intros Hc. unfold attached, backSubscriptions. rewrite fold_left_app.
  cbn [fold_left]. set (subs := fold_left platformStep t []).
  assert (E : platformStep (platformStep subs attachCall) c =
              platformStep subs attachCall).
  { destruct c; try reflexivity; discriminate. }
  rewrite E. cbn [platformStep attachCall].
  destruct (existsb (sameHandler HandleBackPress) subs) eqn:X; [exact X|].
  rewrite existsb_app. cbn. apply orb_true_r.
Qed.

Section ProviderCalls.

Context {St : Type} {methods : ModalState.Store St}.

Lemma step_subscription (op : Operation) (w : World St) :
  modalStateSubscription (step w op) = modalStateSubscription w.
Proof.
  unfold step. destruct op; cbn [perform].
  - rewrite openModal_eq, onStore_eq. reflexivity.
  - unfold discard, bind, getParam. rewrite onStore_eq.
    destruct (snd _); reflexivity.
  - unfold closeModal. rewrite onStore_eq. reflexivity.
  - unfold closeModals. rewrite onStore_eq. reflexivity.
  - unfold closeAllModals. rewrite onStore_eq. reflexivity.
  - unfold discard, bind, hardwareBackPress.
    destruct (attached (trace w)); [|reflexivity].
    rewrite onStore_eq. destruct (snd _); reflexivity.
Qed.

Lemma run_subscription (ops : list Operation) (w : World St) :
  modalStateSubscription (run ops w) = modalStateSubscription w.
Proof.
  revert w. induction ops as [|op ops IH]; intros w; [reflexivity|].
  change (run (op :: ops) w) with (run ops (step w op)).
  rewrite IH. apply step_subscription.
Qed.

Variable invariant : bool -> Error -> outcome unit.

Lemma mount_subscribed (stack : option ModalStack) (w0 w : World St) :
  mount invariant stack w0 = (w, Returned tt) ->
  trace w = trace w0 ++ [StoreInit stack; StoreSubscribe] /\
  exists sub,
    modalStateSubscription w = Some sub /\
    snd (ModalState.subscribe (fst (ModalState.init stack (store w0)))) =
    Returned sub.
Proof.
  unfold mount, bind, completion.
  destruct (invariant (truthy stack) stackMissing) as [[]|e]; [|discriminate].
  rewrite onStore_eq.
  destruct (ModalState.init stack (store w0)) as [s1 [[]|e]];
    cbn [fst snd]; [|discriminate].
  rewrite onStore_eq. cbn [store trace modalStateSubscription].
  destruct (ModalState.subscribe s1) as [s2 [sub|e]];
    cbn [fst snd]; [|discriminate].
  unfold setSubscription. cbn [store trace]. intros M.
  injection M as <-. cbn [trace modalStateSubscription]. split.
  - rewrite <- app_assoc. reflexivity.
  - exists sub. split; reflexivity.
Qed.

(** X9.  When the mount effect returns, the subscription its [subscribe]
    call returned is kept over every sequence of operations, and [cleanup]
    makes two calls: it detaches the hardware-back handler, then
    unsubscribes that subscription. *)
Theorem cleanup_unsubscribes_the_mount_subscription
    (stack : option ModalStack) (w0 w : World St) :
  mount invariant stack w0 = (w, Returned tt) ->
  exists sub,
    snd (ModalState.subscribe (fst (ModalState.init stack (store w0)))) =
      Returned sub /\
    forall ops,
      let now := run ops w in
      modalStateSubscription now = Some sub /\
      trace (fst (cleanup now)) =
        trace now ++ [detachCall; StoreUnsubscribe sub] /\
      store (fst (cleanup now)) =
        fst (ModalState.unsubscribe sub (store now)).
Proof.
  intros M. destruct (mount_subscribed _ _ _ M) as [_ [sub [Hs Hr]]].
  exists sub. split; [exact Hr|]. intros ops now.
  assert (Hn : modalStateSubscription now = Some sub).
  { subst now. rewrite run_subscription. exact Hs. }
  split; [exact Hn|].
  unfold cleanup, bind, call. cbn [modalStateSubscription]. rewrite Hn.
  rewrite onStore_eq. cbn [fst trace store]. rewrite <- app_assoc.
  split; reflexivity.
Qed.

(** X10.  In a mounted root, as long as [openModal] has not been called the
    provider has made no call to [BackHandler]: the handler is not
    subscribed, a hardware back press reports unhandled and changes
    nothing, whatever close and read operations and back presses came
    before. *)
Theorem back_press_before_any_open_is_unhandled
    (s0 : St) (stack : option ModalStack) (w : World St)
    (ops : list Operation) :
  mount invariant stack (beforeMount s0) = (w, Returned tt) ->
  forallb (fun op => negb (isOpenModal op)) ops = true ->
  let now := run ops w in
  backHandlerCalls (trace now) = [] /\
  attached (trace now) = false /\
  hardwareBackPress now = (now, Returned false) /\
  step now OpHardwareBackPress = now.
Proof.
  intros M Hops now.
  destruct (mount_subscribed _ _ _ M) as [T _]. cbn [beforeMount trace app] in T.
  assert (C : backHandlerCalls (trace now) = []).
  { subst now. assert (C0 : backHandlerCalls (trace w) = []).
    { rewrite T. reflexivity. }
    clear M T. revert w C0. induction ops as [|op ops IH]; intros w C0.
    - exact C0.
    - cbn [forallb] in Hops. apply andb_prop in Hops.
      destruct Hops as [Hop Hrest].
      change (run (op :: ops) w) with (run ops (step w op)).
      apply (IH Hrest). rewrite step_backHandlerCalls, C0.
      destruct op; try reflexivity. discriminate. }
  assert (A : attached (trace now) = false).
  { exact (attached_attaches (trace now) 0 C). }
  split; [exact C|]. split; [exact A|].
  assert (H : hardwareBackPress now = (now, Returned false)).
  { unfold hardwareBackPress. rewrite A. reflexivity. }
  split; [exact H|]. unfold step, perform, discard, bind. rewrite H.
  reflexivity.
Qed.

(** X11.  In a mounted root, in every state reached by operations, also
    by operations after [cleanup] has run: on a store without a current
    modal [openModal] attaches the handler before it calls the store, so
    the handler is subscribed afterwards whether the store opens the modal
    or throws; what the store returns or throws is what [openModal] returns
    or throws. *)
Theorem openModal_attaches_before_the_store_call
    (s0 : St) (stack : option ModalStack) (mounted w : World St)
    (ops more : list Operation)
    (modalName : string) (params : ModalState.Params) :
  mount invariant stack (beforeMount s0) = (mounted, Returned tt) ->
  w = run ops mounted \/ w = run more (fst (cleanup (run ops mounted))) ->
  ModalState.currentModal (store w) = None ->
  let result := openModal modalName params w in
  trace (fst result) =
    trace w ++ [attachCall; StoreOpenModal modalName params] /\
  store (fst result) = fst (ModalState.openModal modalName params (store w)) /\
  snd result = snd (ModalState.openModal modalName params (store w)) /\
  attached (trace (fst result)) = true.
Proof.
  intros _ _ N result. subst result. rewrite openModal_eq, onStore_eq.
  cbn [fst snd trace store attachBy]. rewrite N, <- app_assoc.
  repeat split. apply attached_after_attach. reflexivity.
Qed.

End ProviderCalls.

Lemma openModal_attaches_before_the_store_call_witness :
  let mounted := fst (mount Utils.invariant (Some ["Alert"])
                            (beforeMount SpecStore.uninitialized)) in
  let w := run [OpGetParam "Alert_0" "msg" JsUndefined]
               (fst (cleanup (run [OpOpenModal "Alert" []; OpCloseAllModals]
                                  mounted))) in
  let result := openModal "Unknown" [] w in
  attached (trace w) = false /\
  snd result = Threw (UnknownModalError "Unknown") /\
  SpecStore.stack (store (fst result)) = [] /\
  attached (trace (fst result)) = true.
Proof.
  intros mounted w result.
  assert (M : mount Utils.invariant (Some ["Alert"])
                    (beforeMount SpecStore.uninitialized) =
              (mounted, Returned tt)) by reflexivity.
  assert (N : ModalState.currentModal (store w) = None) by reflexivity.
  destruct (openModal_attaches_before_the_store_call
              Utils.invariant SpecStore.uninitialized (Some ["Alert"])
              mounted w [OpOpenModal "Alert" []; OpCloseAllModals]
              [OpGetParam "Alert_0" "msg" JsUndefined]
              "Unknown" [] M (or_intror eq_refl) N)
    as [_ [_ [R A]]].
  split; [reflexivity|]. split; [exact R|]. split; [reflexivity | exact A].
Defined.

Lemma cleanup_unsubscribes_the_mount_subscription_witness :
  let w := fst (mount Utils.invariant (Some ["Alert"])
                      (beforeMount SpecStore.uninitialized)) in
  exists sub,
    forall ops,
      trace (fst (cleanup (run ops w))) =
      trace (run ops w) ++ [detachCall; StoreUnsubscribe sub].
Proof.
  intros w.
  assert (M : mount Utils.invariant (Some ["Alert"])
                    (beforeMount SpecStore.uninitialized) = (w, Returned tt)).
  { reflexivity. }
  destruct (cleanup_unsubscribes_the_mount_subscription
              Utils.invariant (Some ["Alert"]) _ w M) as [sub [_ H]].
  exists sub. intros ops. exact (proj1 (proj2 (H ops))).
Defined.

Lemma back_press_before_any_open_is_unhandled_witness :
  let w := fst (mount Utils.invariant (Some ["Alert"])
                      (beforeMount SpecStore.uninitialized)) in
  let now := run [OpCloseAllModals; OpHardwareBackPress;
                  OpCloseModals "Alert"] w in
  hardwareBackPress now = (now, Returned false).
Proof.
  intros w now.
  assert (M : mount Utils.invariant (Some ["Alert"])
                    (beforeMount SpecStore.uninitialized) = (w, Returned tt)).
  { reflexivity. }
  exact (proj1 (proj2 (proj2
           (back_press_before_any_open_is_unhandled
              Utils.invariant SpecStore.uninitialized (Some ["Alert"]) w
              [OpCloseAllModals; OpHardwareBackPress; OpCloseModals "Alert"]
              M eq_refl)))).
Defined.

(** X12.  Clearing a hash that occurs in no key of the set leaves the set
    as it is. *)
Theorem clearListeners_of_absent_hash
    (hash : string) (reg : ModalEventListeners) :
  wf reg ->
  (forall m, In m (members reg) -> ~ occursIn hash (event (snd m))) ->
  clearListeners hash reg = reg.
Proof.
  intros W Absent. rewrite (clearListeners_eq hash reg W).
  rewrite filter_all.
  - destruct reg; reflexivity.
  - intros m Hin. apply negb_true_iff, not_true_is_false. intros E.
    apply includes_occursIn in E. exact (Absent m Hin E).
Qed.

Lemma clearListeners_of_absent_hash_witness :
  let reg := mkSet 1 [(0, mkListener "b_c" (JsFunction 1))] in
  clearListeners "a" reg = reg.
Proof.
  intros reg.
  assert (W : wf reg).
  { split; simpl; repeat constructor; simpl; intuition discriminate. }
  apply (clearListeners_of_absent_hash "a" reg W).
  intros m [<-|[]] Occ. apply includes_occursIn in Occ. discriminate Occ.
Defined.
